(** * Command-line options: parser and help formatter

    A shallow embedding of [src/clustering/administration/main/options.cc]
    (namespace [options]) and the properties of its parser
    ([do_parse_command_line]) and of its help formatter ([word_wrap],
    [format_help]).

    Conventions of the embedding.
    - [std::string] is [string]; [std::vector<T>] is [list T];
      [std::map<std::string, std::vector<std::string> >] is
      [gmap string (list string)].
    - [argv[0 .. argc)] is a [list string]: [argc] is its length, so the
      [guarantee(argc >= 0)] that opens [do_parse_command_line] always holds.
      The index [i] of the source is the position of the list that is still
      to be read.
    - The parser runs in a small state-and-exception monad over a [frame] that
      holds the two output parameters of [do_parse_command_line] and its two
      local collections.
    - [parse_error_t] carries a message built with [strprintf]; here it is one
      constructor per [throw] of the source, holding the arguments of the
      format string. *)

From stdpp Require Import base option list strings gmap.
From Stdlib Require Import Ascii ZArith Lia.

Local Open Scope string_scope.
Local Open Scope Z_scope.
Local Open Scope list_scope.

(** ** Option declarations *)

(** The largest [size_t]; the source is built for 64-bit targets. *)
Definition SIZE_MAX : Z := 2 ^ 64 - 1.

Inductive appearance_t : Set :=
  | MANDATORY
  | MANDATORY_REPEAT
  | OPTIONAL
  | OPTIONAL_REPEAT
  | OPTIONAL_NO_PARAMETER.

(** [names_t] is declared in options.hpp; the constructors below read its
    member [names]. *)
Record names_t : Set := Names { names_t_names : list string }.

Record option_t : Set := Option_t {
  names : list string;
  min_appearances : Z;
  max_appearances : Z;
  no_parameter : bool;
  default_values : list string
}.

(** [option_t::option_t(names_t, appearance_t)] *)
Definition option_t_new (_names : names_t) (appearance : appearance_t) : option_t :=
  match appearance with
  | MANDATORY =>
      Option_t (names_t_names _names) 1 1 false []
  | MANDATORY_REPEAT =>
      Option_t (names_t_names _names) 1 SIZE_MAX false []
  | OPTIONAL =>
      Option_t (names_t_names _names) 0 1 false []
  | OPTIONAL_REPEAT =>
      Option_t (names_t_names _names) 0 SIZE_MAX false []
  | OPTIONAL_NO_PARAMETER =>
      Option_t (names_t_names _names) 0 1 true []
  end.

(** [option_t::option_t(names_t, appearance_t, std::string default_value)];
    [None] is [unreachable()]. *)
Definition option_t_new_default (_names : names_t) (appearance : appearance_t)
    (default_value : string) : option option_t :=
  match appearance with
  | OPTIONAL =>
      Some (Option_t (names_t_names _names) 0 1 false [default_value])
  | OPTIONAL_REPEAT =>
      Some (Option_t (names_t_names _names) 0 SIZE_MAX false [default_value])
  | MANDATORY | MANDATORY_REPEAT | OPTIONAL_NO_PARAMETER => None
  end.

(** [str[0] == '-']; the first byte of an empty C string is its terminator. *)
Definition looks_like_option_name (str : string) : bool :=
  match str with
  | String c _ => bool_decide (c = "-"%char)
  | EmptyString => false
  end.

(** The inner loop of [find_option]: is [option_name] one of the names? *)
Fixpoint has_name (option_name : string) (ns : list string) : bool :=
  match ns with
  | [] => false
  | n :: ns' => if bool_decide (n = option_name) then true else has_name option_name ns'
  end.

(** [find_option]: the first option one of whose names is [option_name];
    [None] is the [NULL] result. *)
Fixpoint find_option (option_name : string) (options : list option_t) : option option_t :=
  match options with
  | [] => None
  | o :: options' =>
      if has_name option_name (names o) then Some o else find_option option_name options'
  end.

(** ** The parser *)

Inductive parse_error_t : Set :=
  | UnrecognizedOption (option_name : string)
      (* "unrecognized option '%s'" *)
  | UnexpectedValue (option_name : string)
      (* "unexpected unnamed value '%s' (did you forget the option name, ...)" *)
  | TooManyAppearances (option_name : string) (max : Z)
      (* "option '%s' appears too many times (i.e. more than %zu times)" *)
  | MissingParameter (option_name : string)
      (* "option '%s' is missing its parameter" *)
  | ParameterLooksLikeOption (option_name option_parameter : string).
      (* "option '%s' is missing its parameter (because '%s' looks like
         another option name)" *)

(** How a computation ends: it returns, it throws a [parse_error_t], or it
    reads [names[0]] of an option that has no name (outside the vector). *)
Inductive outcome (A : Type) : Type :=
  | Returned (a : A)
  | Thrown (e : parse_error_t)
  | OutOfRange.
Arguments Returned {A} a.
Arguments Thrown {A} e.
Arguments OutOfRange {A}.

(** The objects [do_parse_command_line] can touch: what its two output
    pointers point to ([unrecognized_out] is [None] when the pointer is
    [NULL]) and its two locals. *)
Record frame : Type := Frame {
  unrecognized_out : option (list string);
  names_by_values_out : gmap string (list string);
  names_by_values : gmap string (list string);
  unrecognized : list string
}.

(** Assignments to the two locals. *)
Definition set_names_by_values (m : gmap string (list string)) (s : frame) : frame :=
  Frame (unrecognized_out s) (names_by_values_out s) m (unrecognized s).

Definition set_unrecognized (u : list string) (s : frame) : frame :=
  Frame (unrecognized_out s) (names_by_values_out s) (names_by_values s) u.

Definition M (A : Type) : Type := frame → outcome A * frame.

Definition ret {A} (a : A) : M A := λ s, (Returned a, s).

Definition bind {A B} (m : M A) (k : A → M B) : M B :=
  λ s, match m s with
       | (Returned a, s') => k a s'
       | (Thrown e, s') => (Thrown e, s')
       | (OutOfRange, s') => (OutOfRange, s')
       end.

Definition throw {A} (e : parse_error_t) : M A := λ s, (Thrown e, s).

Definition get : M frame := λ s, (Returned s, s).

Definition put (s : frame) : M unit := λ _, (Returned tt, s).

Declare Scope parse_scope.
Delimit Scope parse_scope with parse.
Notation "x <- m ;; k" := (bind m (λ x, k))
  (at level 100, m at next level, right associativity) : parse_scope.
Notation "m ;; k" := (bind m (λ _, k))
  (at level 100, right associativity) : parse_scope.
Local Open Scope parse_scope.

(** [v[0]] on a vector of strings. *)
Definition front (v : list string) : M string :=
  λ s, match v with
       | x :: _ => (Returned x, s)
       | [] => (OutOfRange, s)
       end.

(** [&names_by_values[official_name]]: [operator[]] inserts an empty vector
    when the key is missing.  The pointer is the key; the result is the
    vector it points to. *)
Definition subscript (official_name : string) : M (list string) :=
  s <- get ;;
  match names_by_values s !! official_name with
  | Some option_parameters => ret option_parameters
  | None =>
      put (set_names_by_values (<[official_name := []]> (names_by_values s)) s) ;;
      ret []
  end.

(** [option_parameters->push_back(value)] through the pointer obtained for
    [official_name]. *)
Definition push_back_parameter (official_name value : string) : M unit :=
  s <- get ;;
  put (set_names_by_values
         (<[official_name := default [] (names_by_values s !! official_name) ++ [value]]>
            (names_by_values s)) s).

(** [unrecognized.push_back(option_name)] *)
Definition push_back_unrecognized (option_name : string) : M unit :=
  s <- get ;;
  put (set_unrecognized (unrecognized s ++ [option_name]) s).

(** The [for (int i = 0; i < argc; )] loop; [argv] is what is left to read. *)
Fixpoint parse_loop (options : list option_t) (argv : list string) : M unit :=
  match argv with
  | [] => ret tt
  | option_name :: rest =>
      match find_option option_name options with
      | None =>
          s <- get ;;
          match unrecognized_out s with
          | Some _ =>
              push_back_unrecognized option_name ;;
              parse_loop options rest
          | None =>
              if looks_like_option_name option_name then
                throw (UnrecognizedOption option_name)
              else
                throw (UnexpectedValue option_name)
          end
      | Some option =>
          official_name <- front (names option) ;;
          option_parameters <- subscript official_name ;;
          if bool_decide (Z.of_nat (length option_parameters) = max_appearances option) then
            throw (TooManyAppearances option_name (max_appearances option))
          else if no_parameter option then
            push_back_parameter official_name EmptyString ;;
            parse_loop options rest
          else
            match rest with
            | [] => throw (MissingParameter option_name)
            | option_parameter :: rest' =>
                if looks_like_option_name option_parameter then
                  throw (ParameterLooksLikeOption option_name option_parameter)
                else
                  push_back_parameter official_name option_parameter ;;
                  parse_loop options rest'
            end
      end
  end.

(** [names_by_values.insert(std::make_pair(key, value))]: no effect when the
    key is present. *)
Definition map_insert (key : string) (value : list string) : M unit :=
  s <- get ;;
  match names_by_values s !! key with
  | Some _ => ret tt
  | None =>
      put (set_names_by_values (<[key := value]> (names_by_values s)) s)
  end.

(** The loop that inserts the default values. *)
Fixpoint insert_defaults (options : list option_t) : M unit :=
  match options with
  | [] => ret tt
  | it :: options' =>
      (if bool_decide (min_appearances it = 0) then
         official_name <- front (names it) ;;
         map_insert official_name (default_values it)
       else ret tt) ;;
      insert_defaults options'
  end.

(** The two [swap]s that end the function; the locals die right after. *)
Definition swap_out : M unit :=
  s <- get ;;
  match unrecognized_out s with
  | Some old =>
      put (Frame (Some (unrecognized s)) (names_by_values s) (names_by_values_out s) old)
  | None =>
      put (Frame None (names_by_values s) (names_by_values_out s) (unrecognized s))
  end.

(** The body of [do_parse_command_line], run on a frame whose locals have
    just been constructed. *)
Definition do_parse_command_line_body (argv : list string) (options : list option_t) : M unit :=
  parse_loop options argv ;;
  insert_defaults options ;;
  swap_out.

(** [do_parse_command_line]: the outcome, and what the two output pointers
    point to afterwards. *)
Definition do_parse_command_line (argv : list string) (options : list option_t)
    (unrecognized_out0 : option (list string))
    (names_by_values_out0 : gmap string (list string))
  : outcome unit * (option (list string) * gmap string (list string)) :=
  let '(r, s) :=
    do_parse_command_line_body argv options
      (Frame unrecognized_out0 names_by_values_out0 ∅ []) in
  (r, (unrecognized_out s, names_by_values_out s)).

(** [parse_command_line] *)
Definition parse_command_line (argv : list string) (options : list option_t)
    (names_by_values_out0 : gmap string (list string)) :=
  do_parse_command_line argv options None names_by_values_out0.

(** [parse_command_line_and_collect_unrecognized]; its [guarantee] holds
    because the pointer is there. *)
Definition parse_command_line_and_collect_unrecognized (argv : list string)
    (options : list option_t) (unrecognized_out0 : list string)
    (names_by_values_out0 : gmap string (list string)) :=
  do_parse_command_line argv options (Some unrecognized_out0) names_by_values_out0.

(** ** The help formatter *)

Record help_line_t : Set := Help_line {
  syntax_description : string;
  blurb : string
}.

Record help_section_t : Set := Help_section {
  section_name : string;
  help_lines : list help_line_t
}.

(** [isspace] in the "C" locale: the space and the five controls
    ['\t'], ['\n'], ['\v'], ['\f'], ['\r']. *)
Definition isspace (c : ascii) : bool :=
  let n := nat_of_ascii c in
  ((n =? 32) || ((9 <=? n) && (n <=? 13)))%nat.

(** [split_by_spaces].  The iterator [it] is the string that is left.
    [skip_spaces] is the loop [while (it != end && isspace( *it))] with the
    test [it == end] that follows it; [take_word] is the loop over [jt] with
    the [push_back] that follows it, [word] being [std::string(it, jt)].  When
    [take_word] stops on a space the source goes round [for (;;)] and skips
    that space first, which is where [skip_spaces] resumes. *)
Fixpoint skip_spaces (s : string) (ret : list string) {struct s} : list string :=
  match s with
  | EmptyString => ret
  | String c s' =>
      if isspace c then skip_spaces s' ret
      else take_word s' (String c EmptyString) ret
  end
with take_word (s : string) (word : string) (ret : list string) {struct s} : list string :=
  match s with
  | EmptyString => ret ++ [word]
  | String c s' =>
      if isspace c then skip_spaces s' (ret ++ [word])
      else take_word s' (word +:+ String c EmptyString) ret
  end.

Definition split_by_spaces (s : string) : list string := skip_spaces s [].

(** [s.size()], read in [Z].  Two strings that are both in memory have
    sizes whose sum is far below [2 ^ 64], so the sums of sizes below do not
    wrap around. *)
Definition size (s : string) : Z := Z.of_nat (String.length s).

(** One round of the loop of [word_wrap] over [words]; the state is
    [(ret, current_line)]. *)
Definition word_wrap_step (width : Z) (st : list string * string) (word : string)
  : list string * string :=
  let '(ret, current_line) := st in
  if bool_decide (current_line = EmptyString) then (ret, word)
  else if bool_decide (size current_line + 1 + size word ≤ width) then
    (ret, current_line +:+ " " +:+ word)
  else (ret ++ [current_line], word).

Definition word_wrap_loop (width : Z) (words : list string) (st : list string * string)
  : list string * string :=
  fold_left (word_wrap_step width) words st.

Definition word_wrap (s : string) (width : Z) : list string :=
  let words := split_by_spaces s in
  let '(ret, current_line) := word_wrap_loop width words ([], EmptyString) in
  ret ++ [current_line].

(** The first pair of loops of [format_help]. *)
Definition max_syntax_description_length (help : list help_section_t) : Z :=
  fold_left
    (λ acc section,
       fold_left (λ acc' line, Z.max acc' (size (syntax_description line)))
                 (help_lines section) acc)
    help 0.

(** [std::max<ssize_t>(30, 79 - static_cast<ssize_t>(...))] *)
Definition summary_width (max_length : Z) : Z := Z.max 30 (79 - max_length).

Definition indent_width (max_length : Z) : Z := 4 + max_length.

(** [std::string(n, ' ')] *)
Definition spaces (n : Z) : string := String.string_of_list_ascii (replicate (Z.to_nat n) " "%char).

(** [std::string(a - b, ' ')] for [a] and [b] of type [size_t].  When [b]
    exceeds [a] the difference wraps around to [a - b + 2 ^ 64], which is more
    characters than a [std::string] holds, and the constructor throws
    [std::length_error]: that is [None]. *)
Definition spaces_sub (a b : Z) : option string :=
  if bool_decide (b ≤ a) then Some (spaces (a - b)) else None.

Definition newline : string := String "010"%char EmptyString.

(** The loop [for (size_t i = 0; i < parts.size(); ++i)]; [parts] is what is
    left of the vector from index [i] on. *)
Fixpoint format_parts (line : help_line_t) (indent : Z) (i : nat) (parts : list string)
    (ret : string) : option string :=
  match parts with
  | [] => Some ret
  | part :: parts' =>
      ret' ← match i with
             | O =>
                 pad ← spaces_sub indent (2 + size (syntax_description line));
                 Some (ret +:+ "  " +:+ syntax_description line +:+ pad)
             | S _ => Some (ret +:+ spaces indent)
             end;
      format_parts line indent (S i) parts' (ret' +:+ part +:+ newline)
  end.

(** The loop over the lines of one section. *)
Fixpoint format_lines (summary indent : Z) (lines : list help_line_t) (ret : string)
  : option string :=
  match lines with
  | [] => Some ret
  | line :: lines' =>
      let parts := word_wrap (blurb line) summary in
      ret' ← format_parts line indent 0 parts ret;
      format_lines summary indent lines' ret'
  end.

(** The loop over the sections. *)
Fixpoint format_sections (summary indent : Z) (help : list help_section_t) (ret : string)
  : option string :=
  match help with
  | [] => Some ret
  | section :: help' =>
      ret' ← format_lines summary indent (help_lines section)
                (ret +:+ section_name section +:+ ":" +:+ newline);
      format_sections summary indent help' (ret' +:+ newline)
  end.

(** [format_help]; [None] is an exception thrown while building the string. *)
Definition format_help (help : list help_section_t) : option string :=
  let max_length := max_syntax_description_length help in
  format_sections (summary_width max_length) (indent_width max_length) help EmptyString.

(** ** Notions used in the statements *)

(** What [push_back] leaves in the map after [operator[]] found or made the
    vector of [official_name]. *)
Definition pushed (official_name value : string) (m : gmap string (list string))
  : gmap string (list string) :=
  <[official_name := default [] (m !! official_name) ++ [value]]> m.

(** What [operator[]] alone leaves in the map. *)
Definition subscripted (official_name : string) (m : gmap string (list string))
  : gmap string (list string) :=
  match m !! official_name with
  | Some _ => m
  | None => <[official_name := []]> m
  end.

(** The frame on which the body starts. *)
Definition entry (unrecognized_out0 : option (list string))
    (names_by_values_out0 : gmap string (list string)) : frame :=
  Frame unrecognized_out0 names_by_values_out0 ∅ [].

(** The default that the loop over the options gives to [key]: that of the
    first option with [min_appearances == 0] whose official name is [key]. *)
Fixpoint first_default (key : string) (options : list option_t) : option (list string) :=
  match options with
  | [] => None
  | it :: options' =>
      if bool_decide (min_appearances it = 0 ∧ head (names it) = Some key)
      then Some (default_values it)
      else first_default key options'
  end.

(** How many of the tokens of [argv] that the loop reads as option names
    match an option whose official name is [key]; the token that follows an
    option taking a parameter is that parameter and is not counted. *)
Fixpoint appearances (options : list option_t) (key : string) (argv : list string) : nat :=
  match argv with
  | [] => 0
  | t :: rest =>
      match find_option t options with
      | None => appearances options key rest
      | Some o =>
          ((if bool_decide (head (names o) = Some key) then 1 else 0) +
           (if no_parameter o then appearances options key rest
            else match rest with
                 | [] => 0
                 | _ :: rest' => appearances options key rest'
                 end))%nat
      end
  end.

(** The values that the loop records under [key], in the order of the
    command line: for each token read as an option name that matches an
    option whose official name is [key], the token after it, or the empty
    string when the option takes no parameter. *)
Fixpoint parameters (options : list option_t) (key : string) (argv : list string)
  : list string :=
  match argv with
  | [] => []
  | t :: rest =>
      match find_option t options with
      | None => parameters options key rest
      | Some o =>
          if no_parameter o then
            (if bool_decide (head (names o) = Some key) then [EmptyString] else [])
              ++ parameters options key rest
          else
            match rest with
            | [] => []
            | p :: rest' =>
                (if bool_decide (head (names o) = Some key) then [p] else [])
                  ++ parameters options key rest'
            end
      end
  end.

(** The tokens that the loop reads as option names and that match no
    declared option, in the order of the command line. *)
Fixpoint unmatched (options : list option_t) (argv : list string) : list string :=
  match argv with
  | [] => []
  | t :: rest =>
      match find_option t options with
      | None => t :: unmatched options rest
      | Some o =>
          if no_parameter o then unmatched options rest
          else match rest with
               | [] => []
               | _ :: rest' => unmatched options rest'
               end
      end
  end.

(** The frames of two runs agree on what the loop reads: the locals, and
    whether there is somewhere to put unrecognized tokens. *)
Definition same_locals (s s' : frame) : Prop :=
  names_by_values s = names_by_values s' ∧
  unrecognized s = unrecognized s' ∧
  (is_Some (unrecognized_out s) ↔ is_Some (unrecognized_out s')).

(** What an error of the loop says about the command line. *)
Definition error_is_sound (options : list option_t) (argv : list string)
    (unrecognized_out0 : option (list string)) (e : parse_error_t) : Prop :=
  match e with
  | UnrecognizedOption n =>
      unrecognized_out0 = None ∧ n ∈ argv ∧
      find_option n options = None ∧ looks_like_option_name n = true
  | UnexpectedValue n =>
      unrecognized_out0 = None ∧ n ∈ argv ∧
      find_option n options = None ∧ looks_like_option_name n = false
  | TooManyAppearances n max =>
      n ∈ argv ∧ ∃ o, find_option n options = Some o ∧ max = max_appearances o
  | MissingParameter n =>
      last argv = Some n ∧
      ∃ o, find_option n options = Some o ∧ no_parameter o = false
  | ParameterLooksLikeOption n p =>
      (∃ before after, argv = before ++ n :: p :: after) ∧
      looks_like_option_name p = true ∧
      ∃ o, find_option n options = Some o ∧ no_parameter o = false
  end.

(** Does no character of [s] satisfy [isspace]? *)
Fixpoint no_space (s : string) : bool :=
  match s with
  | EmptyString => true
  | String c s' => negb (isspace c) && no_space s'
  end.

(** A word: not empty, and without a character for which [isspace] holds. *)
Definition is_word (s : string) : Prop := s ≠ EmptyString ∧ no_space s = true.

(** [s] without the characters for which [isspace] holds. *)
Fixpoint strip_spaces (s : string) : string :=
  match s with
  | EmptyString => EmptyString
  | String c s' => if isspace c then strip_spaces s' else String c (strip_spaces s')
  end.

(** The line [b] begins with one of the words [all], and that word did not
    fit on the line [a] within [width]. *)
Definition needed_break (width : Z) (all : list string) (a b : string) : Prop :=
  ∃ word rest, b = word +:+ rest ∧ word ∈ all ∧ width < size a + 1 + size word.

(** [R] holds of every two neighbours of the list. *)
Fixpoint chain (R : string → string → Prop) (l : list string) : Prop :=
  match l with
  | a :: l' =>
      match l' with
      | b :: _ => R a b ∧ chain R l'
      | [] => True
      end
  | [] => True
  end.

(** Is every character of [s] one for which [isspace] holds? *)
Fixpoint all_spaces (s : string) : bool :=
  match s with
  | EmptyString => true
  | String c s' => isspace c && all_spaces s'
  end.

(** C1, as the specification states it: every declared option with
    [min_appearances == 0] none of whose names is a token has its official
    name mapped to its [default_values] in the result. *)
Definition defaults_for_every_absent_option : Prop :=
  ∀ argv options uo mo uo' result o,
    do_parse_command_line argv options uo mo = (Returned tt, (uo', result)) →
    o ∈ options →
    min_appearances o = 0 →
    (∀ n, n ∈ names o → n ∉ argv) →
    ∃ k, head (names o) = Some k ∧ result !! k = Some (default_values o).

(** C5, the part that fails, as the specification states it: the official
    name of a declared option with [min_appearances >= 1] none of whose names
    is a token is not a key of the result. *)
Definition absent_mandatory_option_is_absent_from_result : Prop :=
  ∀ argv options uo mo uo' result o k,
    do_parse_command_line argv options uo mo = (Returned tt, (uo', result)) →
    o ∈ options →
    1 ≤ min_appearances o →
    (∀ n, n ∈ names o → n ∉ argv) →
    head (names o) = Some k →
    result !! k = None.

(** C6, as the specification states it. *)
Definition every_line_within_width : Prop :=
  ∀ s w line, 0 ≤ w → line ∈ word_wrap s w → size line ≤ w.

(** * Properties *)

(** ** The matcher *)

Lemma has_name_elem_of option_name ns :
  has_name option_name ns = true ↔ option_name ∈ ns.
Proof.
  induction ns as [|n ns IH]; cbn [has_name].
  - split; [discriminate | intros H; inversion H].
  - case_bool_decide as Hn.
    + subst n. split; [intros _; left | done].
    + rewrite IH. split; [intros H; by right |].
      intros H. apply elem_of_cons in H as [->|H]; [done | exact H].
Qed.

Lemma find_option_Some option_name options o :
  find_option option_name options = Some o →
  o ∈ options ∧ option_name ∈ names o.
Proof.
  induction options as [|o' options IH]; cbn [find_option]; [discriminate |].
  destruct (has_name option_name (names o')) eqn:Hn.
  - intros [= <-]. split; [left | by apply has_name_elem_of].
  - intros H. destruct (IH H) as [Hin Hname]. split; [by right | exact Hname].
Qed.

Lemma find_option_names_nonempty option_name options o :
  find_option option_name options = Some o → ∃ k ns, names o = k :: ns.
Proof.
  intros H. apply find_option_Some in H as [_ H].
  destruct (names o) as [|k ns]; [inversion H | eauto].
Qed.

Lemma find_option_None option_name options :
  find_option option_name options = None ↔
  ∀ o, o ∈ options → option_name ∉ names o.
Proof.
  induction options as [|o' options IH]; cbn [find_option].
  - split; [intros _ o H; inversion H | done].
  - destruct (has_name option_name (names o')) eqn:Hn.
    + split; [discriminate |]. intros H. exfalso.
      apply (H o'); [left | by apply has_name_elem_of].
    + rewrite IH. split.
      * intros H o Ho. apply elem_of_cons in Ho as [->|Ho]; [| by apply H].
        intros Hin. apply has_name_elem_of in Hin. congruence.
      * intros H o Ho. apply H. by right.
Qed.

(** ** One round of the parsing loop *)

Ltac frame_simpl :=
  cbn [names_by_values unrecognized_out names_by_values_out unrecognized
       set_names_by_values set_unrecognized fst snd from_option id].

Lemma parse_loop_nil options s : parse_loop options [] s = (Returned tt, s).
Proof. reflexivity. Qed.

Lemma parse_loop_unmatched options option_name rest s :
  find_option option_name options = None →
  parse_loop options (option_name :: rest) s =
  match unrecognized_out s with
  | Some _ => parse_loop options rest (set_unrecognized (unrecognized s ++ [option_name]) s)
  | None =>
      if looks_like_option_name option_name
      then (Thrown (UnrecognizedOption option_name), s)
      else (Thrown (UnexpectedValue option_name), s)
  end.
Proof.
  intros Hfind. cbn [parse_loop]. rewrite Hfind.
  unfold push_back_unrecognized. unfold bind, get, put, throw.
  destruct (unrecognized_out s); [reflexivity |].
  by destruct (looks_like_option_name option_name).
Qed.

Lemma parse_loop_matched options option_name rest s o k ns :
  find_option option_name options = Some o →
  names o = k :: ns →
  parse_loop options (option_name :: rest) s =
  let m := names_by_values s in
  if bool_decide (Z.of_nat (length (default [] (m !! k))) = max_appearances o) then
    (Thrown (TooManyAppearances option_name (max_appearances o)),
     set_names_by_values (subscripted k m) s)
  else if no_parameter o then
    parse_loop options rest (set_names_by_values (pushed k EmptyString m) s)
  else
    match rest with
    | [] => (Thrown (MissingParameter option_name), set_names_by_values (subscripted k m) s)
    | option_parameter :: rest' =>
        if looks_like_option_name option_parameter then
          (Thrown (ParameterLooksLikeOption option_name option_parameter),
           set_names_by_values (subscripted k m) s)
        else
          parse_loop options rest' (set_names_by_values (pushed k option_parameter m) s)
    end.
Proof.
  intros Hfind Hnames. cbn [parse_loop]. rewrite Hfind, Hnames.
  unfold front, subscript, push_back_parameter.
  unfold bind, get, put, ret, throw.
  unfold subscripted, pushed, set_names_by_values. destruct s as [uo mo m u].
  frame_simpl.
  destruct (m !! k) as [v|] eqn:Hk; frame_simpl.
  - case_bool_decide; [reflexivity |].
    destruct (no_parameter o); frame_simpl; [by rewrite Hk |].
    destruct rest as [|p rest']; [reflexivity |].
    destruct (looks_like_option_name p); frame_simpl; [reflexivity | by rewrite Hk].
  - case_bool_decide; [reflexivity |].
    destruct (no_parameter o); frame_simpl.
    { by rewrite lookup_insert_eq, insert_insert_eq. }
    destruct rest as [|p rest']; [reflexivity |].
    destruct (looks_like_option_name p); frame_simpl; [reflexivity |].
    by rewrite lookup_insert_eq, insert_insert_eq.
Qed.

Lemma argv_ind (P : list string → Prop) :
  P [] →
  (∀ t, P [t]) →
  (∀ t p rest, P (p :: rest) → P rest → P (t :: p :: rest)) →
  ∀ argv, P argv.
Proof.
  intros Hnil Hone Htwo argv.
  assert (P argv ∧ ∀ t, P (t :: argv)) as [H _]; [| exact H].
  induction argv as [|p rest [IH1 IH2]]; [by split |].
  split; [apply IH2 |]. intros t. apply Htwo; [apply IH2 | exact IH1].
Qed.

(** Induction along the paths of the loop: one case per way through a
    round. *)
Section parse_loop_ind.
Variable options : list option_t.
Variable P : list string → frame → outcome unit * frame → Prop.


Hypothesis P_done : ∀ s, P [] s (Returned tt, s).
Hypothesis P_collect : ∀ t rest s old,
  find_option t options = None →
  unrecognized_out s = Some old →
  let s1 := set_unrecognized (unrecognized s ++ [t]) s in
  P rest s1 (parse_loop options rest s1) →
  P (t :: rest) s (parse_loop options rest s1).
Hypothesis P_unrecognized : ∀ t rest s,
  find_option t options = None →
  unrecognized_out s = None →
  looks_like_option_name t = true →
  P (t :: rest) s (Thrown (UnrecognizedOption t), s).
Hypothesis P_unexpected : ∀ t rest s,
  find_option t options = None →
  unrecognized_out s = None →
  looks_like_option_name t = false →
  P (t :: rest) s (Thrown (UnexpectedValue t), s).
Hypothesis P_too_many : ∀ t rest s o k ns,
  find_option t options = Some o →
  names o = k :: ns →
  Z.of_nat (length (default [] (names_by_values s !! k))) = max_appearances o →
  P (t :: rest) s (Thrown (TooManyAppearances t (max_appearances o)), set_names_by_values (subscripted k (names_by_values s)) s).
Hypothesis P_flag : ∀ t rest s o k ns,
  find_option t options = Some o →
  names o = k :: ns →
  Z.of_nat (length (default [] (names_by_values s !! k))) ≠ max_appearances o →
  no_parameter o = true →
  let s1 := set_names_by_values (pushed k EmptyString (names_by_values s)) s in
  P rest s1 (parse_loop options rest s1) →
  P (t :: rest) s (parse_loop options rest s1).
Hypothesis P_missing : ∀ t s o k ns,
  find_option t options = Some o →
  names o = k :: ns →
  Z.of_nat (length (default [] (names_by_values s !! k))) ≠ max_appearances o →
  no_parameter o = false →
  P [t] s (Thrown (MissingParameter t), set_names_by_values (subscripted k (names_by_values s)) s).
Hypothesis P_looks_like : ∀ t p rest s o k ns,
  find_option t options = Some o →
  names o = k :: ns →
  Z.of_nat (length (default [] (names_by_values s !! k))) ≠ max_appearances o →
  no_parameter o = false →
  looks_like_option_name p = true →
  P (t :: p :: rest) s (Thrown (ParameterLooksLikeOption t p), set_names_by_values (subscripted k (names_by_values s)) s).
Hypothesis P_value : ∀ t p rest s o k ns,
  find_option t options = Some o →
  names o = k :: ns →
  Z.of_nat (length (default [] (names_by_values s !! k))) ≠ max_appearances o →
  no_parameter o = false →
  looks_like_option_name p = false →
  let s1 := set_names_by_values (pushed k p (names_by_values s)) s in
  P rest s1 (parse_loop options rest s1) →
  P (t :: p :: rest) s (parse_loop options rest s1).

Lemma parse_loop_round t rest :
  (∀ s, P rest s (parse_loop options rest s)) →
  (∀ p rest', rest = p :: rest' → ∀ s, P rest' s (parse_loop options rest' s)) →
  ∀ s, P (t :: rest) s (parse_loop options (t :: rest) s).
Proof using All.
  intros IH1 IH2 s.
  destruct (find_option t options) as [o|] eqn:Hfind.
  - destruct (find_option_names_nonempty _ _ _ Hfind) as (k & ns & Hnames).
    rewrite (parse_loop_matched _ _ _ _ _ _ _ Hfind Hnames). cbv zeta.
    case_bool_decide as Hcount; [by eapply P_too_many |].
    destruct (no_parameter o) eqn:Hflag; [by eapply P_flag |].
    destruct rest as [|p rest']; [by eapply P_missing |].
    destruct (looks_like_option_name p) eqn:Hp; [by eapply P_looks_like |].
    eapply P_value; eauto.
  - rewrite (parse_loop_unmatched _ _ _ _ Hfind).
    destruct (unrecognized_out s) as [old|] eqn:Hout; [by eapply P_collect |].
    destruct (looks_like_option_name t) eqn:Ht;
      [by apply P_unrecognized | by apply P_unexpected].
Qed.

Lemma parse_loop_ind : ∀ argv s, P argv s (parse_loop options argv s).
Proof using All.
  induction argv as [|t|t p rest IH1 IH2] using argv_ind; intros s.
  - apply P_done.
  - apply parse_loop_round; [intros s'; apply P_done | discriminate].
  - apply parse_loop_round; [exact IH1 |].
    intros p' rest' [= <- <-]. exact IH2.
Qed.
End parse_loop_ind.

(** ** What the loop leaves alone *)

(** The loop never writes through the two output pointers, whatever way it
    ends. *)
Lemma parse_loop_outs options argv s :
  unrecognized_out (parse_loop options argv s).2 = unrecognized_out s ∧
  names_by_values_out (parse_loop options argv s).2 = names_by_values_out s.
Proof.
  revert argv s.
  apply (parse_loop_ind options
           (λ _ s r, unrecognized_out r.2 = unrecognized_out s ∧
                     names_by_values_out r.2 = names_by_values_out s));
    try (intros; split; reflexivity).
  all: intros; subst s1; assumption.
Qed.

Lemma lookup_subscripted k k' (m : gmap string (list string)) :
  k ≠ k' → subscripted k m !! k' = m !! k'.
Proof.
  intros Hne. unfold subscripted.
  destruct (m !! k); [done | by rewrite lookup_insert_ne].
Qed.

Lemma lookup_pushed_ne k k' value (m : gmap string (list string)) :
  k ≠ k' → pushed k value m !! k' = m !! k'.
Proof. intros Hne. unfold pushed. by rewrite lookup_insert_ne. Qed.

Lemma lookup_pushed k value (m : gmap string (list string)) :
  pushed k value m !! k = Some (default [] (m !! k) ++ [value]).
Proof. unfold pushed. by rewrite lookup_insert_eq. Qed.

(** A key that is the official name of no option matched by a token keeps
    its entry (or its absence) through the loop. *)
Lemma parse_loop_lookup_untouched options key argv s :
  (∀ t o, t ∈ argv → find_option t options = Some o → head (names o) ≠ Some key) →
  names_by_values (parse_loop options argv s).2 !! key = names_by_values s !! key.
Proof.
  revert argv s.
  apply (parse_loop_ind options
           (λ argv s r,
              (∀ t o, t ∈ argv → find_option t options = Some o →
                      head (names o) ≠ Some key) →
              names_by_values r.2 !! key = names_by_values s !! key)).
  - done.
  - intros t rest s old _ _ s1 IH Hfree. rewrite IH; [done |].
    intros t' o' Hin. apply Hfree. by right.
  - done.
  - done.
  - intros t rest s o k ns Hfind Hnames _ Hfree. cbn.
    apply lookup_subscripted. intros ->.
    apply (Hfree t o); [left | done | by rewrite Hnames].
  - intros t rest s o k ns Hfind Hnames _ _ s1 IH Hfree. rewrite IH.
    + subst s1. cbn. apply lookup_pushed_ne. intros ->.
      apply (Hfree t o); [left | done | by rewrite Hnames].
    + intros t' o' Hin. apply Hfree. by right.
  - intros t s o k ns Hfind Hnames _ _ Hfree. cbn.
    apply lookup_subscripted. intros ->.
    apply (Hfree t o); [left | done | by rewrite Hnames].
  - intros t p rest s o k ns Hfind Hnames _ _ _ Hfree. cbn.
    apply lookup_subscripted. intros ->.
    apply (Hfree t o); [left | done | by rewrite Hnames].
  - intros t p rest s o k ns Hfind Hnames _ _ _ s1 IH Hfree. rewrite IH.
    + subst s1. cbn. apply lookup_pushed_ne. intros ->.
      apply (Hfree t o); [left | done | by rewrite Hnames].
    + intros t' o' Hin. apply Hfree. right. by right.
Qed.

(** A prefix of the command line that the loop reads to its end without
    throwing leaves the loop in the frame from which the rest is read. *)
Lemma parse_loop_app options before rest s s1 :
  parse_loop options before s = (Returned tt, s1) →
  parse_loop options (before ++ rest) s = parse_loop options rest s1.
Proof.
  revert before s s1.
  apply (parse_loop_ind options
           (λ before s r, ∀ s1, r = (Returned tt, s1) →
              parse_loop options (before ++ rest) s = parse_loop options rest s1));
    try discriminate.
  - by intros s s1 [= <-].
  - intros t before s old Hfind Hout s' IH s1 Hrun.
    change ((t :: before) ++ rest) with (t :: (before ++ rest)).
    rewrite (parse_loop_unmatched _ _ _ _ Hfind), Hout. by apply IH.
  - intros t before s o k ns Hfind Hnames Hcount Hflag s' IH s1 Hrun.
    change ((t :: before) ++ rest) with (t :: (before ++ rest)).
    rewrite (parse_loop_matched _ _ _ _ _ _ _ Hfind Hnames). cbv zeta.
    rewrite bool_decide_eq_false_2 by exact Hcount. rewrite Hflag. by apply IH.
  - intros t p before s o k ns Hfind Hnames Hcount Hflag Hp s' IH s1 Hrun.
    change ((t :: p :: before) ++ rest) with (t :: p :: (before ++ rest)).
    rewrite (parse_loop_matched _ _ _ _ _ _ _ Hfind Hnames). cbv zeta.
    rewrite bool_decide_eq_false_2 by exact Hcount. rewrite Hflag, Hp. by apply IH.
Qed.

(** ** The defaults *)

Lemma insert_defaults_cons it options s :
  insert_defaults (it :: options) s =
  if bool_decide (min_appearances it = 0) then
    match names it with
    | [] => (OutOfRange, s)
    | k :: _ =>
        insert_defaults options
          match names_by_values s !! k with
          | Some _ => s
          | None => set_names_by_values (<[k := default_values it]> (names_by_values s)) s
          end
    end
  else insert_defaults options s.
Proof.
  cbn [insert_defaults]. unfold map_insert, front. unfold bind, get, put, ret.
  case_bool_decide; [| reflexivity].
  destruct (names it) as [|k ns]; [reflexivity |].
  by destruct (names_by_values s !! k).
Qed.

Lemma insert_defaults_spec options s :
  match insert_defaults options s with
  | (Returned _, s') =>
      unrecognized_out s' = unrecognized_out s ∧
      names_by_values_out s' = names_by_values_out s ∧
      unrecognized s' = unrecognized s ∧
      (∀ key, names_by_values s' !! key =
              match names_by_values s !! key with
              | Some v => Some v
              | None => first_default key options
              end) ∧
      (∀ o, o ∈ options → min_appearances o = 0 → names o ≠ [])
  | (Thrown _, _) => False
  | (OutOfRange, s') =>
      unrecognized_out s' = unrecognized_out s ∧
      names_by_values_out s' = names_by_values_out s ∧
      ∃ o, o ∈ options ∧ min_appearances o = 0 ∧ names o = []
  end.
Proof.
  revert s. induction options as [|it options IH]; intros s.
  - cbn. repeat split; try done.
    + intros key. by destruct (names_by_values s !! key).
    + intros o Ho. inversion Ho.
  - rewrite insert_defaults_cons. case_bool_decide as Hmin.
    + destruct (names it) as [|k ns] eqn:Hnames.
      { repeat split; try done. exists it. repeat split; [left | done..]. }
      set (s1 := match names_by_values s !! k with
                 | Some _ => s
                 | None => set_names_by_values
                             (<[k := default_values it]> (names_by_values s)) s
                 end).
      assert (unrecognized_out s1 = unrecognized_out s ∧
              names_by_values_out s1 = names_by_values_out s ∧
              unrecognized s1 = unrecognized s) as (Huo & Hmo & Hu).
      { subst s1. by destruct (names_by_values s !! k). }
      assert (∀ key, names_by_values s1 !! key =
                     match names_by_values s !! key with
                     | Some v => Some v
                     | None => if bool_decide (k = key)
                               then Some (default_values it) else None
                     end) as Hs1.
      { intros key. subst s1. destruct (names_by_values s !! k) as [v|] eqn:Hk.
        - destruct (names_by_values s !! key) eqn:Hkey; [done |].
          case_bool_decide; [congruence | done].
        - cbn. case_bool_decide as Hkk.
          + subst key. by rewrite lookup_insert_eq, Hk.
          + rewrite lookup_insert_ne by done.
            by destruct (names_by_values s !! key). }
      specialize (IH s1). destruct (insert_defaults options s1) as [[[]|e|] s'].
      * destruct IH as (Huo' & Hmo' & Hu' & Hlook & Hwf).
        repeat split; [congruence.. | |].
        -- intros key. rewrite Hlook, Hs1. cbn [first_default]. rewrite Hnames.
           destruct (names_by_values s !! key) as [v|]; [done |].
           cbn [head]. case_bool_decide as Hkk.
           ++ subst key. by rewrite bool_decide_eq_true_2.
           ++ rewrite bool_decide_eq_false_2; [done |]. intros [_ [= ?]]. done.
        -- intros o Ho Hmin'. apply elem_of_cons in Ho as [->|Ho];
             [by rewrite Hnames | by apply Hwf].
      * done.
      * destruct IH as (Huo' & Hmo' & o & Ho & Hmin' & Hnil).
        repeat split; [congruence.. |]. exists o. repeat split; [by right | done..].
    + specialize (IH s). destruct (insert_defaults options s) as [[[]|e|] s'].
      * destruct IH as (Huo' & Hmo' & Hu' & Hlook & Hwf).
        repeat split; [done.. | |].
        -- intros key. rewrite Hlook. cbn [first_default].
           rewrite bool_decide_eq_false_2; [done |]. by intros [? _].
        -- intros o Ho Hmin'. apply elem_of_cons in Ho as [->|Ho];
             [done | by apply Hwf].
      * done.
      * destruct IH as (Huo' & Hmo' & o & Ho & Hmin' & Hnil).
        repeat split; [done.. |]. exists o. repeat split; [by right | done..].
Qed.

(** ** The whole of [do_parse_command_line] *)

Lemma do_parse_command_line_unfold argv options uo mo :
  do_parse_command_line argv options uo mo =
  match parse_loop options argv (entry uo mo) with
  | (Returned _, s1) =>
      match insert_defaults options s1 with
      | (Returned _, s2) =>
          (Returned tt,
           (match unrecognized_out s2 with
            | Some _ => Some (unrecognized s2)
            | None => None
            end, names_by_values s2))
      | (Thrown e, s2) => (Thrown e, (unrecognized_out s2, names_by_values_out s2))
      | (OutOfRange, s2) => (OutOfRange, (unrecognized_out s2, names_by_values_out s2))
      end
  | (Thrown e, s1) => (Thrown e, (unrecognized_out s1, names_by_values_out s1))
  | (OutOfRange, s1) => (OutOfRange, (unrecognized_out s1, names_by_values_out s1))
  end.
Proof.
  unfold do_parse_command_line, do_parse_command_line_body, swap_out.
  unfold bind, get, put. fold (entry uo mo).
  destruct (parse_loop options argv (entry uo mo)) as [[[]|e|] s1]; try reflexivity.
  destruct (insert_defaults options s1) as [[[]|e|] s2]; try reflexivity.
  by destruct (unrecognized_out s2).
Qed.

(** A throw of [do_parse_command_line] is a throw of its loop. *)
Lemma do_parse_command_line_thrown argv options uo mo e :
  (do_parse_command_line argv options uo mo).1 = Thrown e ↔
  (parse_loop options argv (entry uo mo)).1 = Thrown e.
Proof.
  rewrite do_parse_command_line_unfold.
  destruct (parse_loop options argv (entry uo mo)) as [[[]|e'|] s1]; try done.
  pose proof (insert_defaults_spec options s1) as Hdef.
  destruct (insert_defaults options s1) as [[[]|e'|] s2]; done.
Qed.

(** What a call that returns has done. *)
Lemma do_parse_command_line_returned argv options uo mo uo' result :
  do_parse_command_line argv options uo mo = (Returned tt, (uo', result)) →
  ∃ s1,
    parse_loop options argv (entry uo mo) = (Returned tt, s1) ∧
    uo' = match uo with Some _ => Some (unrecognized s1) | None => None end ∧
    (∀ key, result !! key =
            match names_by_values s1 !! key with
            | Some v => Some v
            | None => first_default key options
            end) ∧
    (∀ o, o ∈ options → min_appearances o = 0 → names o ≠ []).
Proof.
  rewrite do_parse_command_line_unfold.
  pose proof (parse_loop_outs options argv (entry uo mo)) as [Huo _].
  destruct (parse_loop options argv (entry uo mo)) as [[[]|e'|] s1]; try done.
  pose proof (insert_defaults_spec options s1) as Hdef.
  destruct (insert_defaults options s1) as [[[]|e'|] s2]; try done.
  destruct Hdef as (Huo2 & _ & Hu & Hlook & Hwf).
  intros [= <- <-]. exists s1. repeat split; [| exact Hlook | exact Hwf].
  rewrite Huo2, Hu. cbn in Huo. by rewrite Huo.
Qed.

(** When every option that can get a default has a name, a call whose loop
    returns returns. *)
Lemma do_parse_command_line_returns argv options uo mo s1 :
  parse_loop options argv (entry uo mo) = (Returned tt, s1) →
  (∀ o, o ∈ options → min_appearances o = 0 → names o ≠ []) →
  ∃ uo' result, do_parse_command_line argv options uo mo = (Returned tt, (uo', result)).
Proof.
  intros Hloop Hwf. rewrite do_parse_command_line_unfold, Hloop.
  pose proof (insert_defaults_spec options s1) as Hdef.
  destruct (insert_defaults options s1) as [[[]|e'|] s2]; [eauto | done |].
  destruct Hdef as (_ & _ & o & Ho & Hmin & Hnil). by destruct (Hwf o Ho Hmin).
Qed.

Lemma first_default_Some key options o :
  o ∈ options →
  min_appearances o = 0 →
  head (names o) = Some key →
  (∀ o', o' ∈ options → head (names o') = Some key → o' = o) →
  first_default key options = Some (default_values o).
Proof.
  intros Ho Hmin Hkey. induction options as [|it options IH]; intros Honly.
  - inversion Ho.
  - cbn [first_default]. case_bool_decide as Hit.
    + destruct Hit as [_ Hit]. by rewrite (Honly it) by (done || left).
    + apply elem_of_cons in Ho as [->|Ho]; [by destruct Hit |].
      apply IH; [exact Ho |]. intros o' Ho'. apply Honly. by right.
Qed.

Lemma first_default_None key options :
  (∀ o, o ∈ options → head (names o) = Some key → min_appearances o ≠ 0) →
  first_default key options = None.
Proof.
  induction options as [|it options IH]; intros Hall; [done |].
  cbn [first_default]. case_bool_decide as Hit.
  - destruct Hit as [Hmin Hkey]. destruct (Hall it); [left | done..].
  - apply IH. intros o Ho. apply Hall. by right.
Qed.

(** No token matches an option whose official name is that of [o], when no
    name of [o] is a token and [o] alone has that official name. *)
Lemma unreferenced (options : list option_t) (argv : list string) o key :
  head (names o) = Some key →
  (∀ n, n ∈ names o → n ∉ argv) →
  (∀ o', o' ∈ options → head (names o') = head (names o) → o' = o) →
  ∀ t o', t ∈ argv → find_option t options = Some o' → head (names o') ≠ Some key.
Proof.
  intros Hkey Habsent Honly t o' Ht Hfind Hkey'.
  apply find_option_Some in Hfind as [Ho' Hname].
  rewrite (Honly o' Ho') in Hname by congruence.
  by apply (Habsent t).
Qed.

(** ** The claims about the parser *)

(** C1 fails as stated.  Two options built with the constructor that takes a
    default, [--x] with default [1] and then [--x] with default [2]: on the
    empty command line the call returns, and [insert] leaves [--x] mapped to
    the default of the first, not to that of the second. *)
Lemma C1_counterexample_shared_official_name :
  let o1 := Option_t ["--x"] 0 1 false ["1"] in
  let o2 := Option_t ["--x"] 0 1 false ["2"] in
  option_t_new_default (Names ["--x"]) OPTIONAL "1" = Some o1 ∧
  option_t_new_default (Names ["--x"]) OPTIONAL "2" = Some o2 ∧
  parse_command_line [] [o1; o2] ∅ = (Returned tt, (None, {["--x" := ["1"]]})) ∧
  default_values o2 = ["2"] ∧
  ¬ defaults_for_every_absent_option.
Proof.
  intros o1 o2.
  assert (parse_command_line [] [o1; o2] ∅ = (Returned tt, (None, {["--x" := ["1"]]})))
    as Hcall by by vm_compute.
  split; [reflexivity |]. split; [reflexivity |].
  split; [exact Hcall |]. split; [reflexivity |].
  intros Hclaim.
  destruct (Hclaim [] [o1; o2] None ∅ None {["--x" := ["1"]]} o2) as (k & Hk & Hres).
  - exact Hcall.
  - right. left.
  - reflexivity.
  - intros n _ Hn. inversion Hn.
  - injection Hk as <-. vm_compute in Hres. discriminate.
Qed.

(** C1, amended: when [do_parse_command_line] returns, every declared option
    with [min_appearances == 0], none of whose names is a token and whose
    official name is that of no other declared option, has its official name
    mapped to its [default_values]; every entry that the loop made is in the
    result unchanged; [default_values] is empty for an option built without a
    default and holds the one default for an option built with one. *)
Theorem C1_defaults_for_absent_options argv options uo mo uo' result :
  do_parse_command_line argv options uo mo = (Returned tt, (uo', result)) →
  (∀ o, o ∈ options →
        min_appearances o = 0 →
        (∀ n, n ∈ names o → n ∉ argv) →
        (∀ o', o' ∈ options → head (names o') = head (names o) → o' = o) →
        ∃ k, head (names o) = Some k ∧ result !! k = Some (default_values o)) ∧
  (∃ s1, parse_loop options argv (entry uo mo) = (Returned tt, s1) ∧
         ∀ key v, names_by_values s1 !! key = Some v → result !! key = Some v) ∧
  (∀ _names appearance, default_values (option_t_new _names appearance) = []) ∧
  (∀ _names appearance default_value o,
     option_t_new_default _names appearance default_value = Some o →
     default_values o = [default_value]).
Proof.
  intros Hcall.
  destruct (do_parse_command_line_returned _ _ _ _ _ _ Hcall)
    as (s1 & Hloop & _ & Hlook & Hwf).
  repeat split.
  - intros o Ho Hmin Habsent Honly.
    assert (∃ k, head (names o) = Some k) as [k Hkey].
    { destruct (names o) eqn:Hnames; [by destruct (Hwf o Ho Hmin) | by eexists]. }
    exists k. split; [done |].
    pose proof (parse_loop_lookup_untouched options k argv (entry uo mo)
                  (unreferenced options argv o k Hkey Habsent Honly)) as Hfree.
    rewrite Hloop in Hfree. cbn in Hfree. rewrite Hlook, Hfree.
    apply first_default_Some; [done.. |].
    intros o' Ho' Hkey'. apply Honly; congruence.
  - exists s1. split; [done |]. intros key v Hv. by rewrite Hlook, Hv.
  - by intros n [].
  - intros n [] d o [= <-]; reflexivity.
Qed.

Lemma C1_defaults_for_absent_options_witness :
  let host := option_t_new (Names ["--host"]) MANDATORY in
  let verbose := option_t_new (Names ["--verbose"]) OPTIONAL_NO_PARAMETER in
  let port := Option_t ["--port"; "-p"] 0 1 false ["8080"] in
  ∃ result,
    parse_command_line ["--host"; "example"] [host; verbose; port] ∅
      = (Returned tt, (None, result)) ∧
    result !! "--port" = Some ["8080"] ∧
    result !! "--verbose" = Some [].
Proof.
  intros host verbose port.
  exists (parse_command_line ["--host"; "example"] [host; verbose; port] ∅).2.2.
  assert (parse_command_line ["--host"; "example"] [host; verbose; port] ∅
          = (Returned tt,
             (None, (parse_command_line ["--host"; "example"] [host; verbose; port] ∅).2.2)))
    as Hcall by (vm_compute; reflexivity).
  split; [exact Hcall |].
  destruct (C1_defaults_for_absent_options _ _ _ _ _ _ Hcall) as (Hdefault & _).
  split.
  - destruct (Hdefault port) as (k & Hk & Hres).
    + right. right. left.
    + reflexivity.
    + intros n Hn Hargv. apply list_elem_of_In in Hn, Hargv. simpl in Hn, Hargv.
      intuition (subst; discriminate).
    + intros o' Ho' Hhead. apply list_elem_of_In in Ho'. simpl in Ho'.
      destruct Ho' as [<-|[<-|[<-|[]]]]; (reflexivity || discriminate).
    + injection Hk as <-. exact Hres.
  - destruct (Hdefault verbose) as (k & Hk & Hres).
    + right. left.
    + reflexivity.
    + intros n Hn Hargv. apply list_elem_of_In in Hn, Hargv. simpl in Hn, Hargv.
      intuition (subst; discriminate).
    + intros o' Ho' Hhead. apply list_elem_of_In in Ho'. simpl in Ho'.
      destruct Ho' as [<-|[<-|[<-|[]]]]; (reflexivity || discriminate).
    + injection Hk as <-. exact Hres.
Defined.

Lemma length_pushed k key value (m : gmap string (list string)) :
  length (default [] (pushed k value m !! key)) =
  ((if bool_decide (Some k = Some key) then 1 else 0) + length (default [] (m !! key)))%nat.
Proof.
  case_bool_decide as Hk.
  - injection Hk as <-. rewrite lookup_pushed. cbn. rewrite length_app. cbn. lia.
  - rewrite lookup_pushed_ne; [done | congruence].
Qed.

(** Each vector of the map grows by one value per appearance. *)
Lemma parse_loop_count options key before s s1 :
  parse_loop options before s = (Returned tt, s1) →
  length (default [] (names_by_values s1 !! key)) =
  (length (default [] (names_by_values s !! key)) + appearances options key before)%nat.
Proof.
  revert before s s1.
  apply (parse_loop_ind options
           (λ before s r, ∀ s1, r = (Returned tt, s1) →
              length (default [] (names_by_values s1 !! key)) =
              (length (default [] (names_by_values s !! key))
               + appearances options key before)%nat));
    try discriminate.
  - intros s s1 [= <-]. cbn. lia.
  - intros t rest s old Hfind Hout s' IH s1 Hrun.
    cbn [appearances]. rewrite Hfind. by rewrite (IH s1 Hrun).
  - intros t rest s o k ns Hfind Hnames Hcount Hflag s' IH s1 Hrun.
    cbn [appearances]. rewrite Hfind, Hflag, Hnames. rewrite (IH s1 Hrun).
    subst s'. frame_simpl. rewrite length_pushed. cbn [head]. lia.
  - intros t p rest s o k ns Hfind Hnames Hcount Hflag Hp s' IH s1 Hrun.
    cbn [appearances]. rewrite Hfind, Hflag, Hnames. rewrite (IH s1 Hrun).
    subst s'. frame_simpl. rewrite length_pushed. cbn [head]. lia.
Qed.

(** The loop throws "appears too many times" only at a token that matches an
    option whose vector already holds [max_appearances] values, the tokens
    before it having been read without a throw. *)
Lemma parse_loop_too_many options argv s t max :
  (parse_loop options argv s).1 = Thrown (TooManyAppearances t max) →
  ∃ before after o k s1,
    argv = before ++ t :: after ∧
    parse_loop options before s = (Returned tt, s1) ∧
    find_option t options = Some o ∧
    head (names o) = Some k ∧
    Z.of_nat (length (default [] (names_by_values s1 !! k))) = max_appearances o ∧
    max = max_appearances o.
Proof.
  revert argv s.
  apply (parse_loop_ind options
           (λ argv s r,
              r.1 = Thrown (TooManyAppearances t max) →
              ∃ before after o k s1,
                argv = before ++ t :: after ∧
                parse_loop options before s = (Returned tt, s1) ∧
                find_option t options = Some o ∧
                head (names o) = Some k ∧
                Z.of_nat (length (default [] (names_by_values s1 !! k)))
                  = max_appearances o ∧
                max = max_appearances o)); try discriminate.
  - intros t0 rest s old Hfind Hout s' IH Hthrow.
    destruct (IH Hthrow) as (before & after & o & k & s1 & -> & Hrun & Hrest).
    exists (t0 :: before), after, o, k, s1. split; [done |]. split; [| exact Hrest].
    by rewrite (parse_loop_unmatched _ _ _ _ Hfind), Hout.
  - intros t0 rest s o k ns Hfind Hnames Hcount [= -> <-].
    exists [], rest, o, k, s. by rewrite Hnames.
  - intros t0 rest s o0 k0 ns Hfind Hnames Hcount Hflag s' IH Hthrow.
    destruct (IH Hthrow) as (before & after & o & k & s1 & -> & Hrun & Hrest).
    exists (t0 :: before), after, o, k, s1. split; [done |]. split; [| exact Hrest].
    rewrite (parse_loop_matched _ _ _ _ _ _ _ Hfind Hnames). cbv zeta.
    by rewrite bool_decide_eq_false_2, Hflag.
  - intros t0 p rest s o0 k0 ns Hfind Hnames Hcount Hflag Hp s' IH Hthrow.
    destruct (IH Hthrow) as (before & after & o & k & s1 & -> & Hrun & Hrest).
    exists (t0 :: p :: before), after, o, k, s1. split; [done |]. split; [| exact Hrest].
    rewrite (parse_loop_matched _ _ _ _ _ _ _ Hfind Hnames). cbv zeta.
    by rewrite bool_decide_eq_false_2, Hflag, Hp.
Qed.

(** C2: [do_parse_command_line] throws "appears too many times" exactly when
    the tokens before some token are read without a throw and that token
    matches a declared option whose official name already has
    [max_appearances] values, which are as many as the appearances of that
    official name among the tokens before: the throw comes at appearance
    [max_appearances + 1] and at no earlier one.  A flag with
    [max_appearances = 1] given twice in a row throws it at the second. *)
Theorem C2_too_many_appearances :
  (∀ argv options uo mo t max,
     (do_parse_command_line argv options uo mo).1 = Thrown (TooManyAppearances t max) ↔
     ∃ before after o k s1,
       argv = before ++ t :: after ∧
       parse_loop options before (entry uo mo) = (Returned tt, s1) ∧
       find_option t options = Some o ∧
       head (names o) = Some k ∧
       Z.of_nat (length (default [] (names_by_values s1 !! k))) = max_appearances o ∧
       Z.of_nat (appearances options k before) = max_appearances o ∧
       max = max_appearances o) ∧
  (∀ options o t rest uo mo,
     find_option t options = Some o →
     no_parameter o = true →
     max_appearances o = 1 →
     (do_parse_command_line (t :: t :: rest) options uo mo).1
       = Thrown (TooManyAppearances t 1)).
Proof.
  split.
  - intros argv options uo mo t max. rewrite do_parse_command_line_thrown. split.
    + intros Hthrow.
      destruct (parse_loop_too_many _ _ _ _ _ Hthrow)
        as (before & after & o & k & s1 & Hargv & Hrun & Hfind & Hkey & Hcount & Hmax).
      exists before, after, o, k, s1. repeat split; try done.
      rewrite <- Hcount, (parse_loop_count _ k _ _ _ Hrun). by cbn.
    + intros (before & after & o & k & s1 & -> & Hrun & Hfind & Hkey & Hcount & _ & ->).
      rewrite (parse_loop_app _ _ _ _ _ Hrun).
      destruct (names o) as [|k' ns] eqn:Hnames; [discriminate |].
      injection Hkey as ->.
      rewrite (parse_loop_matched _ _ _ _ _ _ _ Hfind Hnames). cbv zeta.
      by rewrite bool_decide_eq_true_2.
  - intros options o t rest uo mo Hfind Hflag Hmax.
    apply do_parse_command_line_thrown.
    destruct (find_option_names_nonempty _ _ _ Hfind) as (k & ns & Hnames).
    rewrite (parse_loop_matched _ _ _ _ _ _ _ Hfind Hnames). cbv zeta.
    unfold entry. frame_simpl. rewrite lookup_empty, Hmax, Hflag.
    rewrite bool_decide_eq_false_2 by done.
    rewrite (parse_loop_matched _ _ _ _ _ _ _ Hfind Hnames). cbv zeta.
    frame_simpl. rewrite lookup_pushed, lookup_empty, Hmax.
    by rewrite bool_decide_eq_true_2.
Qed.

Lemma C2_too_many_appearances_witness :
  let verbose := option_t_new (Names ["--verbose"]) OPTIONAL_NO_PARAMETER in
  (parse_command_line ["--verbose"; "--verbose"] [verbose] ∅).1
    = Thrown (TooManyAppearances "--verbose" 1).
Proof.
  intros verbose.
  apply (proj2 C2_too_many_appearances [verbose] verbose "--verbose" [] None ∅);
    reflexivity.
Defined.

(** C3: at a token that matches a declared option taking a parameter, whose
    vector does not yet hold [max_appearances] values: when it is the last
    token the loop throws "missing its parameter"; when the next token begins
    with ['-'] it throws "looks like another option name", whether or not
    unrecognized tokens are collected; otherwise the next token is appended
    to the vector of the official name and the loop goes on after it.  With
    [--host] such an option, the tokens [--host -x value] throw "looks like
    another option name". *)
Theorem C3_parameter_of_an_option :
  (∀ options t rest s o k,
     find_option t options = Some o →
     head (names o) = Some k →
     no_parameter o = false →
     Z.of_nat (length (default [] (names_by_values s !! k))) ≠ max_appearances o →
     (rest = [] →
      (parse_loop options (t :: rest) s).1 = Thrown (MissingParameter t)) ∧
     (∀ p rest', rest = p :: rest' → looks_like_option_name p = true →
      (parse_loop options (t :: rest) s).1 = Thrown (ParameterLooksLikeOption t p)) ∧
     (∀ p rest', rest = p :: rest' → looks_like_option_name p = false →
      parse_loop options (t :: rest) s =
      parse_loop options rest'
        (set_names_by_values
           (<[k := default [] (names_by_values s !! k) ++ [p]]> (names_by_values s)) s))) ∧
  (∀ options o uo mo,
     find_option "--host" options = Some o →
     no_parameter o = false →
     max_appearances o ≠ 0 →
     (do_parse_command_line ["--host"; "-x"; "value"] options uo mo).1
       = Thrown (ParameterLooksLikeOption "--host" "-x")).
Proof.
  split.
  - intros options t rest s o k Hfind Hkey Hflag Hcount.
    destruct (names o) as [|k' ns] eqn:Hnames; [discriminate |].
    injection Hkey as ->.
    rewrite (parse_loop_matched _ _ _ _ _ _ _ Hfind Hnames). cbv zeta.
    rewrite bool_decide_eq_false_2 by exact Hcount. rewrite Hflag.
    repeat split.
    + by intros ->.
    + intros p rest' -> Hp. by rewrite Hp.
    + intros p rest' -> Hp. by rewrite Hp.
  - intros options o uo mo Hfind Hflag Hmax.
    apply do_parse_command_line_thrown.
    destruct (find_option_names_nonempty _ _ _ Hfind) as (k & ns & Hnames).
    rewrite (parse_loop_matched _ _ _ _ _ _ _ Hfind Hnames). cbv zeta.
    unfold entry. frame_simpl. rewrite lookup_empty, Hflag.
    rewrite bool_decide_eq_false_2; [done |]. cbn. lia.
Qed.

Lemma C3_parameter_of_an_option_witness :
  let host := option_t_new (Names ["--host"; "-h"]) MANDATORY in
  (parse_loop [host] ["--host"] (entry None ∅)).1 = Thrown (MissingParameter "--host") ∧
  (parse_loop [host] ["--host"; "-x"; "value"] (entry (Some []) ∅)).1
    = Thrown (ParameterLooksLikeOption "--host" "-x") ∧
  parse_loop [host] ["-h"; "example"; "rest"] (entry None ∅)
    = parse_loop [host] ["rest"]
        (set_names_by_values {["--host" := ["example"]]} (entry None ∅)) ∧
  (parse_command_line ["--host"; "-x"; "value"] [host] ∅).1
    = Thrown (ParameterLooksLikeOption "--host" "-x").
Proof.
  intros host.
  destruct (proj1 C3_parameter_of_an_option [host] "--host" [] (entry None ∅)
              host "--host") as (Hlast & _ & _); [reflexivity | reflexivity | reflexivity | done |].
  destruct (proj1 C3_parameter_of_an_option [host] "--host" ["-x"; "value"]
              (entry (Some []) ∅) host "--host") as (_ & Hlooks & _);
    [reflexivity | reflexivity | reflexivity | done |].
  destruct (proj1 C3_parameter_of_an_option [host] "-h" ["example"; "rest"]
              (entry None ∅) host "--host") as (_ & _ & Hvalue);
    [reflexivity | reflexivity | reflexivity | done |].
  split; [by apply Hlast |].
  split; [by apply (Hlooks "-x" ["value"]) |].
  split; [by apply (Hvalue "example" ["rest"]) |].
  apply (proj2 C3_parameter_of_an_option [host] host None ∅); [reflexivity | reflexivity | done].
Defined.

(** With collection on, a run of tokens none of which matches an option is
    appended to [unrecognized] as it stands. *)
Lemma parse_loop_all_unmatched options argv s old :
  unrecognized_out s = Some old →
  (∀ t, t ∈ argv → find_option t options = None) →
  parse_loop options argv s = (Returned tt, set_unrecognized (unrecognized s ++ argv) s).
Proof.
  revert s. induction argv as [|t argv IH]; intros s Hout Hnone.
  - rewrite parse_loop_nil, app_nil_r. by destruct s.
  - rewrite parse_loop_unmatched by (apply Hnone; left). rewrite Hout.
    rewrite IH; [| done | intros t' Ht'; apply Hnone; by right].
    unfold set_unrecognized. frame_simpl. by rewrite <- app_assoc.
Qed.

(** C4: at a token that matches no declared name: with collection on, the
    token is appended to [unrecognized], the map is not touched and the loop
    goes on; with collection off, the loop throws "unrecognized option" when
    the token begins with ['-'] and "unexpected unnamed value" otherwise.
    When no token matches, the call returns the tokens in their order as the
    unrecognized ones, and a map that holds the defaults only. *)
Theorem C4_unmatched_token :
  (∀ options t rest s,
     find_option t options = None →
     (∀ old, unrecognized_out s = Some old →
        let s' := set_unrecognized (unrecognized s ++ [t]) s in
        parse_loop options (t :: rest) s = parse_loop options rest s' ∧
        names_by_values s' = names_by_values s) ∧
     (unrecognized_out s = None → looks_like_option_name t = true →
        parse_loop options (t :: rest) s = (Thrown (UnrecognizedOption t), s)) ∧
     (unrecognized_out s = None → looks_like_option_name t = false →
        parse_loop options (t :: rest) s = (Thrown (UnexpectedValue t), s))) ∧
  (∀ options argv old mo,
     (∀ t, t ∈ argv → find_option t options = None) →
     (∀ o, o ∈ options → min_appearances o = 0 → names o ≠ []) →
     ∃ result,
       parse_command_line_and_collect_unrecognized argv options old mo
         = (Returned tt, (Some argv, result)) ∧
       ∀ key, result !! key = first_default key options).
Proof.
  split.
  - intros options t rest s Hfind.
    rewrite (parse_loop_unmatched _ _ _ _ Hfind). split; [| split].
    + intros old Hout s'. split; [by rewrite Hout | reflexivity].
    + intros Hout Ht. by rewrite Hout, Ht.
    + intros Hout Ht. by rewrite Hout, Ht.
  - intros options argv old mo Hnone Hwf.
    unfold parse_command_line_and_collect_unrecognized.
    pose proof (parse_loop_all_unmatched options argv (entry (Some old) mo) old
                  eq_refl Hnone) as Hloop.
    destruct (do_parse_command_line_returns _ _ _ _ _ Hloop Hwf) as (uo' & result & Hcall).
    destruct (do_parse_command_line_returned _ _ _ _ _ _ Hcall)
      as (s1 & Hloop' & -> & Hlook & _).
    rewrite Hloop in Hloop'. injection Hloop' as <-.
    exists result. split; [exact Hcall |].
    intros key. rewrite Hlook. cbn. by rewrite lookup_empty.
Qed.

Lemma C4_unmatched_token_witness :
  let verbose := option_t_new (Names ["--verbose"]) OPTIONAL_NO_PARAMETER in
  parse_loop [verbose] ["stray"; "--verbose"] (entry (Some []) ∅)
    = parse_loop [verbose] ["--verbose"] (set_unrecognized ["stray"] (entry (Some []) ∅)) ∧
  parse_loop [verbose] ["-q"; "--verbose"] (entry None ∅)
    = (Thrown (UnrecognizedOption "-q"), entry None ∅) ∧
  parse_loop [verbose] ["stray"; "--verbose"] (entry None ∅)
    = (Thrown (UnexpectedValue "stray"), entry None ∅) ∧
  ∃ result,
    parse_command_line_and_collect_unrecognized ["stray"; "-q"] [verbose] ["old"] ∅
      = (Returned tt, (Some ["stray"; "-q"], result)).
Proof.
  intros verbose.
  destruct (proj1 C4_unmatched_token [verbose] "stray" ["--verbose"] (entry (Some []) ∅))
    as (Hcollect & _ & _); [reflexivity |].
  destruct (proj1 C4_unmatched_token [verbose] "-q" ["--verbose"] (entry None ∅))
    as (_ & Hdash & _); [reflexivity |].
  destruct (proj1 C4_unmatched_token [verbose] "stray" ["--verbose"] (entry None ∅))
    as (_ & _ & Hvalue); [reflexivity |].
  destruct (proj2 C4_unmatched_token [verbose] ["stray"; "-q"] ["old"] ∅)
    as (result & Hcall & _).
  { intros t Ht. apply list_elem_of_In in Ht. simpl in Ht.
    destruct Ht as [<-|[<-|[]]]; reflexivity. }
  { intros o Ho _. apply list_elem_of_In in Ho. simpl in Ho.
    destruct Ho as [<-|[]]. discriminate. }
  split; [exact (proj1 (Hcollect [] eq_refl)) |].
  split; [by apply Hdash |].
  split; [by apply Hvalue |].
  exists result. exact Hcall.
Defined.

(** C5 fails as stated.  A mandatory [--x] declared before an optional [--x]
    with default [d]: on the empty command line the call returns a map in
    which [--x], the official name of the mandatory option, has the default
    of the optional one. *)
Lemma C5_counterexample_shared_official_name :
  let o1 := option_t_new (Names ["--x"]) MANDATORY in
  let o2 := Option_t ["--x"] 0 1 false ["d"] in
  option_t_new_default (Names ["--x"]) OPTIONAL "d" = Some o2 ∧
  min_appearances o1 = 1 ∧
  parse_command_line [] [o1; o2] ∅ = (Returned tt, (None, {["--x" := ["d"]]})) ∧
  ¬ absent_mandatory_option_is_absent_from_result.
Proof.
  intros o1 o2.
  assert (parse_command_line [] [o1; o2] ∅ = (Returned tt, (None, {["--x" := ["d"]]})))
    as Hcall by by vm_compute.
  split; [reflexivity |]. split; [reflexivity |]. split; [exact Hcall |].
  intros Hclaim.
  assert (({["--x" := ["d"]]} : gmap string (list string)) !! "--x" = None) as Hres.
  { apply (Hclaim [] [o1; o2] None ∅ None {["--x" := ["d"]]} o1 "--x").
    - exact Hcall.
    - left.
    - by cbn.
    - intros n _ Hn. inversion Hn.
    - reflexivity. }
  vm_compute in Hres. discriminate.
Qed.

(** C5, amended: when every option has a name, [do_parse_command_line]
    returns on the empty command line, whatever [min_appearances] the options
    have; and when a call returns, the official name of a declared option with
    [min_appearances >= 1], none of whose names is a token and whose official
    name is that of no other declared option, is not a key of the result. *)
Theorem C5_mandatory_options_are_not_checked :
  (∀ options uo mo,
     (∀ o, o ∈ options → names o ≠ []) →
     ∃ uo' result,
       do_parse_command_line [] options uo mo = (Returned tt, (uo', result))) ∧
  (∀ argv options uo mo uo' result o k,
     do_parse_command_line argv options uo mo = (Returned tt, (uo', result)) →
     o ∈ options →
     1 ≤ min_appearances o →
     (∀ n, n ∈ names o → n ∉ argv) →
     head (names o) = Some k →
     (∀ o', o' ∈ options → head (names o') = head (names o) → o' = o) →
     result !! k = None).
Proof.
  split.
  - intros options uo mo Hwf.
    apply (do_parse_command_line_returns [] options uo mo (entry uo mo));
      [apply parse_loop_nil | intros o Ho _; by apply Hwf].
  - intros argv options uo mo uo' result o k Hcall Ho Hmin Habsent Hkey Honly.
    destruct (do_parse_command_line_returned _ _ _ _ _ _ Hcall)
      as (s1 & Hloop & _ & Hlook & _).
    pose proof (parse_loop_lookup_untouched options k argv (entry uo mo)
                  (unreferenced options argv o k Hkey Habsent Honly)) as Hfree.
    rewrite Hloop in Hfree. cbn in Hfree. rewrite Hlook, Hfree.
    apply first_default_None. intros o' Ho' Hkey'.
    rewrite (Honly o' Ho') by congruence. lia.
Qed.

Lemma C5_mandatory_options_are_not_checked_witness :
  let host := option_t_new (Names ["--host"; "-h"]) MANDATORY in
  let join := option_t_new (Names ["--join"]) MANDATORY_REPEAT in
  let verbose := option_t_new (Names ["--verbose"]) OPTIONAL_NO_PARAMETER in
  ∃ result,
    parse_command_line [] [host; join; verbose] ∅ = (Returned tt, (None, result)) ∧
    result !! "--host" = None ∧
    result !! "--join" = None.
Proof.
  intros host join verbose.
  destruct (proj1 C5_mandatory_options_are_not_checked [host; join; verbose] None ∅)
    as (uo' & result & Hcall).
  { intros o Ho. apply list_elem_of_In in Ho. simpl in Ho.
    destruct Ho as [<-|[<-|[<-|[]]]]; discriminate. }
  assert (uo' = None) as ->.
  { destruct (do_parse_command_line_returned _ _ _ _ _ _ Hcall) as (_ & _ & Huo & _).
    exact Huo. }
  exists result. split; [exact Hcall |]. split.
  - apply (proj2 C5_mandatory_options_are_not_checked _ _ _ _ _ _ host _ Hcall).
    + left.
    + by cbn.
    + intros n _ Hn. inversion Hn.
    + reflexivity.
    + intros o' Ho' Hhead. apply list_elem_of_In in Ho'. simpl in Ho'.
      destruct Ho' as [<-|[<-|[<-|[]]]]; (reflexivity || discriminate).
  - apply (proj2 C5_mandatory_options_are_not_checked _ _ _ _ _ _ join _ Hcall).
    + right. left.
    + by cbn.
    + intros n _ Hn. inversion Hn.
    + reflexivity.
    + intros o' Ho' Hhead. apply list_elem_of_In in Ho'. simpl in Ho'.
      destruct Ho' as [<-|[<-|[<-|[]]]]; (reflexivity || discriminate).
Defined.

(** C10: when [do_parse_command_line] throws, what its two output pointers
    point to is what it was before the call. *)
Theorem C10_failure_is_atomic argv options uo mo e outs :
  do_parse_command_line argv options uo mo = (Thrown e, outs) →
  outs = (uo, mo).
Proof.
  rewrite do_parse_command_line_unfold.
  pose proof (parse_loop_outs options argv (entry uo mo)) as [Huo Hmo].
  destruct (parse_loop options argv (entry uo mo)) as [[[]|e1|] s1]; [| | done].
  - pose proof (insert_defaults_spec options s1) as Hdef.
    destruct (insert_defaults options s1) as [[[]|e2|] s2]; done.
  - intros [= _ <-]. cbn in Huo, Hmo. by rewrite Huo, Hmo.
Qed.

Lemma C10_failure_is_atomic_witness :
  let verbose := option_t_new (Names ["--verbose"]) OPTIONAL_NO_PARAMETER in
  let host := option_t_new (Names ["--host"]) MANDATORY in
  (do_parse_command_line ["stray"; "--host"; "a"; "--verbose"; "--verbose"] [verbose; host]
     (Some ["old"]) {["--kept" := ["1"]]}).2
  = (Some ["old"], {["--kept" := ["1"]]}).
Proof.
  intros verbose host.
  apply (C10_failure_is_atomic
           ["stray"; "--host"; "a"; "--verbose"; "--verbose"] [verbose; host]
           (Some ["old"]) {["--kept" := ["1"]]} (TooManyAppearances "--verbose" 1)).
  vm_compute. reflexivity.
Defined.

(** ** The claims about the help formatter *)

Lemma size_app a b : size (a +:+ b) = size a + size b.
Proof.
  unfold size. rewrite <- Nat2Z.inj_add. f_equal.
  induction a as [|c a IH]; [done |]. simpl. f_equal. exact IH.
Qed.

(** Every finished line, and the line in progress unless it is still empty,
    is no wider than [width] or is one of the words. *)
Lemma word_wrap_loop_lines width (all words : list string) ret current_line :
  let fits line := size line ≤ width ∨ line ∈ all in
  (∀ word, word ∈ words → word ∈ all) →
  Forall fits ret →
  current_line = EmptyString ∨ fits current_line →
  let '(ret', current_line') := word_wrap_loop width words (ret, current_line) in
  Forall fits ret' ∧ (current_line' = EmptyString ∨ fits current_line').
Proof.
  intros fits. revert ret current_line.
  induction words as [|word words IH]; intros ret current_line Hall Hret Hcur; [done |].
  unfold word_wrap_loop. cbn [fold_left]. fold (word_wrap_loop width words).
  assert (fits word) as Hword by (right; apply Hall; left).
  assert (∀ word', word' ∈ words → word' ∈ all) as Hall'
    by (intros word' Hin; apply Hall; by right).
  unfold word_wrap_step. case_bool_decide as Hempty.
  - apply IH; [done | done | by right].
  - case_bool_decide as Hfit.
    + apply IH; [done | done |]. right. left.
      rewrite !size_app. change (size " ") with 1. lia.
    + apply IH; [done | | by right].
      apply Forall_app. split; [done |]. apply Forall_singleton.
      by destruct Hcur.
Qed.

(** C6 fails as stated: a word is never cut, so [word_wrap("abcd", 3)] is
    the one line [abcd], of length 4. *)
Lemma C6_counterexample_long_word :
  word_wrap "abcd" 3 = ["abcd"] ∧
  size "abcd" = 4 ∧
  ¬ every_line_within_width.
Proof.
  split; [reflexivity |]. split; [reflexivity |].
  intros Hclaim.
  assert (size "abcd" ≤ 3) as Hsize; [| vm_compute in Hsize; by apply Hsize].
  apply (Hclaim "abcd" 3 "abcd"); [lia |].
  change (word_wrap "abcd" 3) with ["abcd"]. left.
Qed.

(** C6, amended: every line returned by [word_wrap(s, w)] has length at most
    [w], except a line made of one word of [s] that is itself longer than
    [w]. *)
Theorem C6_lines_within_width_or_one_word s w line :
  0 ≤ w →
  line ∈ word_wrap s w →
  size line ≤ w ∨ (line ∈ split_by_spaces s ∧ w < size line).
Proof.
  intros Hw Hline. unfold word_wrap in Hline.
  pose proof (word_wrap_loop_lines w (split_by_spaces s) (split_by_spaces s) []
                EmptyString (λ _ H, H) (Forall_nil_2 _) (or_introl eq_refl)) as Hloop.
  destruct (word_wrap_loop w (split_by_spaces s) ([], EmptyString)) as [ret current_line].
  destruct Hloop as [Hret Hcur].
  assert (size line ≤ w ∨ line ∈ split_by_spaces s) as [Hfit|Hword].
  { apply elem_of_app in Hline as [Hline|Hline].
    - by apply (proj1 (Forall_forall _ _) Hret).
    - apply list_elem_of_singleton in Hline as ->.
      destruct Hcur as [->|Hcur]; [by left | exact Hcur]. }
  - by left.
  - destruct (decide (size line ≤ w)); [by left | right; split; [done | lia]].
Qed.

Lemma C6_lines_within_width_or_one_word_witness :
  size "aa bb" ≤ 5 ∨ ("aa bb" ∈ split_by_spaces "aa bb cc" ∧ 5 < size "aa bb").
Proof.
  apply (C6_lines_within_width_or_one_word "aa bb cc" 5 "aa bb"); [lia |].
  change (word_wrap "aa bb cc" 5) with ["aa bb"; "cc"]. left.
Defined.

(** C7 fails as stated: the result is not the three lines [a], [b], [c]. *)
Lemma C7_counterexample_a_b_c : word_wrap "a b c" 3 ≠ ["a"; "b"; "c"].
Proof. vm_compute. discriminate. Qed.

(** C7, amended: [word_wrap("a b c", 3)] is the two lines [a b] and [c]:
    [a b] has three characters and fits. *)
Theorem C7_word_wrap_a_b_c : word_wrap "a b c" 3 = ["a b"; "c"].
Proof. reflexivity. Qed.

Lemma skip_spaces_all_spaces s ret : all_spaces s = true → skip_spaces s ret = ret.
Proof.
  induction s as [|c s IH]; [done |]. cbn [all_spaces skip_spaces].
  intros [Hc Hs]%andb_prop. rewrite Hc. by apply IH.
Qed.

(** C8: for every width, [word_wrap] of a string all of whose characters are
    spaces (the empty string among them) is one empty line; so is
    [word_wrap] of the empty string at width 10. *)
Theorem C8_blank_input_gives_one_empty_line :
  (∀ s w, all_spaces s = true → word_wrap s w = [EmptyString]) ∧
  word_wrap EmptyString 10 = [EmptyString].
Proof.
  split; [| reflexivity].
  intros s w Hs. unfold word_wrap, split_by_spaces.
  by rewrite skip_spaces_all_spaces.
Qed.

Lemma C8_blank_input_gives_one_empty_line_witness :
  word_wrap (String " " (String "009" (String "010" (String " " EmptyString)))) 7
  = [EmptyString].
Proof.
  apply (proj1 C8_blank_input_gives_one_empty_line). reflexivity.
Defined.

Lemma fold_max_lines (lines : list help_line_t) acc :
  let m := fold_left (λ acc' line, Z.max acc' (size (syntax_description line))) lines acc in
  acc ≤ m ∧ ∀ line, line ∈ lines → size (syntax_description line) ≤ m.
Proof.
  revert acc. induction lines as [|l lines IH]; intros acc; cbn.
  - split; [lia |]. intros line Hin. inversion Hin.
  - destruct (IH (Z.max acc (size (syntax_description l)))) as [Hacc Hlines].
    split; [lia |]. intros line Hin.
    apply elem_of_cons in Hin as [->|Hin]; [lia | by apply Hlines].
Qed.

Lemma fold_max_sections (help : list help_section_t) acc :
  let m := fold_left
             (λ acc section,
                fold_left (λ acc' line, Z.max acc' (size (syntax_description line)))
                          (help_lines section) acc)
             help acc in
  acc ≤ m ∧
  ∀ section line, section ∈ help → line ∈ help_lines section →
                  size (syntax_description line) ≤ m.
Proof.
  revert acc. induction help as [|sec help IH]; intros acc; cbn.
  - split; [lia |]. intros section line Hin. inversion Hin.
  - destruct (fold_max_lines (help_lines sec) acc) as [Hacc Hsec].
    cbv zeta in Hacc, Hsec.
    destruct (IH (fold_left (λ acc' line, Z.max acc' (size (syntax_description line)))
                            (help_lines sec) acc)) as [Hacc' Hhelp].
    split; [lia |]. intros section line Hin Hline.
    apply elem_of_cons in Hin as [->|Hin]; [| by eapply Hhelp].
    specialize (Hsec line Hline). lia.
Qed.

(** No syntax description is longer than the maximum that [format_help]
    computes first. *)
Lemma max_syntax_description_length_ge help section line :
  section ∈ help → line ∈ help_lines section →
  size (syntax_description line) ≤ max_syntax_description_length help.
Proof. apply (fold_max_sections help 0). Qed.

Lemma format_parts_is_Some line indent i parts ret :
  (i = 0%nat → 2 + size (syntax_description line) ≤ indent) →
  is_Some (format_parts line indent i parts ret).
Proof.
  revert i ret. induction parts as [|part parts IH]; intros i ret Hfirst; [by eexists |].
  cbn [format_parts]. destruct i as [|i].
  - unfold spaces_sub. rewrite bool_decide_eq_true_2 by by apply Hfirst.
    cbn. by apply IH.
  - cbn. by apply IH.
Qed.

Lemma format_lines_is_Some summary indent lines ret :
  (∀ line, line ∈ lines → 2 + size (syntax_description line) ≤ indent) →
  is_Some (format_lines summary indent lines ret).
Proof.
  revert ret. induction lines as [|line lines IH]; intros ret Hlines; [by eexists |].
  cbn [format_lines].
  destruct (format_parts_is_Some line indent 0 (word_wrap (blurb line) summary) ret)
    as [ret' ->]; [intros _; apply Hlines; left |].
  cbn. apply IH. intros line' Hin. apply Hlines. by right.
Qed.

Lemma format_sections_is_Some summary indent help ret :
  (∀ section line, section ∈ help → line ∈ help_lines section →
                   2 + size (syntax_description line) ≤ indent) →
  is_Some (format_sections summary indent help ret).
Proof.
  revert ret. induction help as [|section help IH]; intros ret Hhelp; [by eexists |].
  cbn [format_sections].
  destruct (format_lines_is_Some summary indent (help_lines section)
              (ret +:+ section_name section +:+ ":" +:+ newline)) as [ret' ->].
  { intros line Hline. apply (Hhelp section); [left | done]. }
  cbn. apply IH. intros section' line Hin. apply Hhelp. by right.
Qed.

(** C9: [format_help] returns a string for every list of sections; for every
    line, the syntax description is no longer than the maximum, the indent is
    the maximum plus four, and the number of padding spaces,
    [indent_width - (2 + size)], does not wrap around: it is the maximum plus
    two minus the size. *)
Theorem C9_format_help_is_total help :
  (∃ out, format_help help = Some out) ∧
  (∀ section line,
     section ∈ help → line ∈ help_lines section →
     let m := max_syntax_description_length help in
     size (syntax_description line) ≤ m ∧
     indent_width m = 4 + m ∧
     2 + size (syntax_description line) ≤ indent_width m ∧
     spaces_sub (indent_width m) (2 + size (syntax_description line))
       = Some (spaces (m + 2 - size (syntax_description line)))).
Proof.
  assert (∀ section line,
            section ∈ help → line ∈ help_lines section →
            2 + size (syntax_description line)
              ≤ indent_width (max_syntax_description_length help)) as Hpad.
  { intros section line Hsec Hline.
    pose proof (max_syntax_description_length_ge help section line Hsec Hline).
    unfold indent_width. lia. }
  split.
  - unfold format_help. by apply format_sections_is_Some.
  - intros section line Hsec Hline m.
    pose proof (max_syntax_description_length_ge help section line Hsec Hline) as Hmax.
    specialize (Hpad section line Hsec Hline). fold m in Hmax, Hpad.
    repeat split; [done.. |].
    unfold spaces_sub. rewrite bool_decide_eq_true_2 by done.
    do 2 f_equal. unfold indent_width. lia.
Qed.

Lemma C9_format_help_is_total_witness :
  let port := Help_line "--port <n>" "the port to listen on" in
  let quiet := Help_line "-q" EmptyString in
  let help := [Help_section "Options" [port; quiet]; Help_section "Nothing" []] in
  (∃ out, format_help help = Some out) ∧
  spaces_sub 14 4 = Some (spaces 10).
Proof.
  intros port quiet help. split.
  - exact (proj1 (C9_format_help_is_total help)).
  - destruct (proj2 (C9_format_help_is_total help) (Help_section "Options" [port; quiet]) quiet)
      as (_ & _ & _ & Hpad); [left | right; left |].
    exact Hpad.
Defined.

(** * Further properties *)

(** ** The option declarations and the matcher *)

(** Both constructors give [min_appearances <= max_appearances], with a
    minimum of 0 or 1 and a maximum of 1 or [SIZE_MAX], and keep the names;
    only [OPTIONAL_NO_PARAMETER] gives an option without parameter.  The
    constructor that takes a default accepts [OPTIONAL] and [OPTIONAL_REPEAT]
    alone, and then differs from the other one in [default_values] only. *)
Theorem X1_constructors_cardinality :
  (∀ _names appearance,
     let o := option_t_new _names appearance in
     names o = names_t_names _names ∧
     (min_appearances o = 0 ∨ min_appearances o = 1) ∧
     (max_appearances o = 1 ∨ max_appearances o = SIZE_MAX) ∧
     min_appearances o ≤ max_appearances o ∧
     (no_parameter o = true ↔ appearance = OPTIONAL_NO_PARAMETER) ∧
     (min_appearances o = 0 ↔
      appearance = OPTIONAL ∨ appearance = OPTIONAL_REPEAT ∨
      appearance = OPTIONAL_NO_PARAMETER)) ∧
  (∀ _names appearance default_value,
     (is_Some (option_t_new_default _names appearance default_value) ↔
      appearance = OPTIONAL ∨ appearance = OPTIONAL_REPEAT) ∧
     ∀ o, option_t_new_default _names appearance default_value = Some o →
          o = Option_t (names (option_t_new _names appearance))
                       (min_appearances (option_t_new _names appearance))
                       (max_appearances (option_t_new _names appearance))
                       (no_parameter (option_t_new _names appearance))
                       [default_value] ∧
          min_appearances o = 0 ∧ no_parameter o = false).
Proof.
  split.
  - intros n a o. subst o.
    destruct a; cbn; unfold SIZE_MAX;
      (repeat split; try lia; try (by left); try (by right); try done;
       try (intros [?|[?|?]]; done); try (intros _; tauto)).
  - intros n a d. split.
    + destruct a; cbn; split; try (by eexists); try tauto;
        try (intros [? ?]; done); try (intros [?|?]; done).
    + intros o. destruct a; cbn; intros [= <-]; done.
Qed.

Lemma X1_constructors_cardinality_witness :
  ∃ o, option_t_new_default (Names ["--port"; "-p"]) OPTIONAL "8080" = Some o ∧
       min_appearances o = 0 ∧ no_parameter o = false ∧ default_values o = ["8080"].
Proof.
  exists (Option_t ["--port"; "-p"] 0 1 false ["8080"]).
  destruct (proj2 (proj2 X1_constructors_cardinality (Names ["--port"; "-p"]) OPTIONAL "8080")
              (Option_t ["--port"; "-p"] 0 1 false ["8080"]) eq_refl) as (_ & Hmin & Hflag).
  split; [reflexivity |]. split; [exact Hmin |]. split; [exact Hflag | reflexivity].
Defined.

(** [find_option] returns the first declared option that has the name: every
    option declared before it lacks the name; it returns [NULL] exactly when
    no declared option has the name. *)
Theorem X2_find_option_first_match option_name options :
  (∀ o, find_option option_name options = Some o ↔
        ∃ before after,
          options = before ++ o :: after ∧
          option_name ∈ names o ∧
          ∀ o', o' ∈ before → option_name ∉ names o') ∧
  (find_option option_name options = None ↔
   ∀ o, o ∈ options → option_name ∉ names o).
Proof.
  split; [| apply find_option_None].
  intros o. induction options as [|o1 options IH]; cbn [find_option].
  - split; [discriminate |]. intros (before & after & Heq & _). by destruct before.
  - destruct (has_name option_name (names o1)) eqn:Hn.
    + split.
      * intros [= <-]. exists [], options. split; [done |].
        split; [by apply has_name_elem_of |]. intros o' Ho'. inversion Ho'.
      * intros (before & after & Heq & Hname & Hfirst).
        destruct before as [|b before]; [by injection Heq as -> |].
        injection Heq as <- _. exfalso.
        apply (Hfirst o1); [left | by apply has_name_elem_of].
    + rewrite IH. split.
      * intros (before & after & -> & Hname & Hfirst).
        exists (o1 :: before), after. split; [done |]. split; [done |].
        intros o' Ho'. apply elem_of_cons in Ho' as [->|Ho']; [| by apply Hfirst].
        intros Hin. apply has_name_elem_of in Hin. congruence.
      * intros (before & after & Heq & Hname & Hfirst).
        destruct before as [|b before].
        { injection Heq as <- _. apply has_name_elem_of in Hname. congruence. }
        injection Heq as <- ->. exists before, after. split; [done |].
        split; [done |]. intros o' Ho'. apply Hfirst. by right.
Qed.

(** ** The result of a parse *)

Lemma first_default_elem key options d :
  first_default key options = Some d →
  ∃ o, o ∈ options ∧ min_appearances o = 0 ∧ head (names o) = Some key ∧
       d = default_values o.
Proof.
  induction options as [|it options IH]; cbn [first_default]; [discriminate |].
  case_bool_decide as Hit.
  - intros [= <-]. exists it. destruct Hit. repeat split; [left | done..].
  - intros Hd. destruct (IH Hd) as (o & Ho & Hrest). exists o. split; [by right | done].
Qed.

(** What the loop leaves under a key, from what was there and the parameters
    of the key. *)
Lemma parse_loop_parameters options key argv s s1 :
  parse_loop options argv s = (Returned tt, s1) →
  names_by_values s1 !! key =
  match parameters options key argv with
  | [] => names_by_values s !! key
  | ps => Some (default [] (names_by_values s !! key) ++ ps)
  end.
Proof.
  revert argv s s1.
  apply (parse_loop_ind options
           (λ argv s r, ∀ s1, r = (Returned tt, s1) →
              names_by_values s1 !! key =
              match parameters options key argv with
              | [] => names_by_values s !! key
              | ps => Some (default [] (names_by_values s !! key) ++ ps)
              end)); try discriminate.
  - by intros s s1 [= <-].
  - intros t rest s old Hfind Hout s' IH s1 Hrun.
    cbn [parameters]. rewrite Hfind. by rewrite (IH s1 Hrun).
  - intros t rest s o k ns Hfind Hnames Hcount Hflag s' IH s1 Hrun.
    cbn [parameters]. rewrite Hfind, Hflag, Hnames. rewrite (IH s1 Hrun).
    subst s'. frame_simpl. cbn [head]. case_bool_decide as Hk.
    + injection Hk as <-. rewrite lookup_pushed. cbn [from_option id app].
      destruct (parameters options k rest); [done |]. by rewrite <- app_assoc.
    + rewrite lookup_pushed_ne by congruence. done.
  - intros t p rest s o k ns Hfind Hnames Hcount Hflag Hp s' IH s1 Hrun.
    cbn [parameters]. rewrite Hfind, Hflag, Hnames. rewrite (IH s1 Hrun).
    subst s'. frame_simpl. cbn [head]. case_bool_decide as Hk.
    + injection Hk as <-. rewrite lookup_pushed. cbn [from_option id app].
      destruct (parameters options k rest); [done |]. by rewrite <- app_assoc.
    + rewrite lookup_pushed_ne by congruence. done.
Qed.

Lemma result_lookup argv options uo mo uo' result key :
  do_parse_command_line argv options uo mo = (Returned tt, (uo', result)) →
  result !! key =
  match parameters options key argv with
  | [] => first_default key options
  | ps => Some ps
  end.
Proof.
  intros Hcall.
  destruct (do_parse_command_line_returned _ _ _ _ _ _ Hcall)
    as (s1 & Hloop & _ & Hlook & _).
  rewrite Hlook, (parse_loop_parameters _ key _ _ _ Hloop).
  unfold entry. frame_simpl. rewrite lookup_empty.
  by destruct (parameters options key argv).
Qed.

(** When [do_parse_command_line] returns, the result holds under each key
    the parameters given for that official name, in the order of the command
    line, with one empty string for each appearance of a flag; a key that was
    not given has the default of the first declared option with
    [min_appearances == 0] that has it as its official name, and is absent
    when there is none. *)
Theorem X3_result_holds_parameters_in_order argv options uo mo uo' result :
  do_parse_command_line argv options uo mo = (Returned tt, (uo', result)) →
  ∀ key,
    result !! key =
    match parameters options key argv with
    | [] => first_default key options
    | ps => Some ps
    end.
Proof. intros Hcall key. by apply (result_lookup argv options uo mo uo'). Qed.

Lemma X3_result_holds_parameters_in_order_witness :
  let join := option_t_new (Names ["--join"; "-j"]) OPTIONAL_REPEAT in
  let verbose := option_t_new (Names ["--verbose"]) OPTIONAL_NO_PARAMETER in
  (parse_command_line ["-j"; "a"; "--verbose"; "--join"; "b"] [join; verbose] ∅).2.2
    !! "--join" = Some ["a"; "b"].
Proof.
  intros join verbose.
  apply (X3_result_holds_parameters_in_order
           ["-j"; "a"; "--verbose"; "--join"; "b"] [join; verbose] None ∅ None).
  vm_compute. reflexivity.
Defined.

Lemma parse_loop_bound options key max argv s s1 :
  (∀ o, o ∈ options → head (names o) = Some key → max_appearances o = max) →
  parse_loop options argv s = (Returned tt, s1) →
  Z.of_nat (length (default [] (names_by_values s !! key))) ≤ max →
  Z.of_nat (length (default [] (names_by_values s1 !! key))) ≤ max.
Proof.
  intros Hall. revert argv s s1.
  apply (parse_loop_ind options
           (λ argv s r, ∀ s1, r = (Returned tt, s1) →
              Z.of_nat (length (default [] (names_by_values s !! key))) ≤ max →
              Z.of_nat (length (default [] (names_by_values s1 !! key))) ≤ max));
    try discriminate.
  - by intros s s1 [= <-].
  - intros t rest s old Hfind Hout s' IH s1 Hrun Hstart. by apply IH.
  - intros t rest s o k ns Hfind Hnames Hcount Hflag s' IH s1 Hrun Hstart.
    apply IH; [done |]. subst s'. frame_simpl. rewrite length_pushed.
    case_bool_decide as Hk; [| lia]. injection Hk as ->.
    assert (max_appearances o = max) as Hmax.
    { apply Hall; [by apply find_option_Some in Hfind as [? _] | by rewrite Hnames]. }
    lia.
  - intros t p rest s o k ns Hfind Hnames Hcount Hflag Hp s' IH s1 Hrun Hstart.
    apply IH; [done |]. subst s'. frame_simpl. rewrite length_pushed.
    case_bool_decide as Hk; [| lia]. injection Hk as ->.
    assert (max_appearances o = max) as Hmax.
    { apply Hall; [by apply find_option_Some in Hfind as [? _] | by rewrite Hnames]. }
    lia.
Qed.

(** When [do_parse_command_line] returns, an official name whose options all
    have the same [max_appearances] was given at most that many times. *)
Theorem X4_appearances_within_maximum argv options uo mo uo' result key max :
  do_parse_command_line argv options uo mo = (Returned tt, (uo', result)) →
  0 ≤ max →
  (∀ o, o ∈ options → head (names o) = Some key → max_appearances o = max) →
  Z.of_nat (appearances options key argv) ≤ max ∧
  Z.of_nat (length (parameters options key argv)) ≤ max.
Proof.
  intros Hcall Hmax Hall.
  destruct (do_parse_command_line_returned _ _ _ _ _ _ Hcall) as (s1 & Hloop & _).
  assert (Z.of_nat (length (default [] (names_by_values s1 !! key))) ≤ max) as Hbound.
  { apply (parse_loop_bound options key max argv (entry uo mo) s1 Hall Hloop).
    unfold entry. frame_simpl. rewrite lookup_empty. cbn. lia. }
  split.
  - rewrite (parse_loop_count _ key _ _ _ Hloop) in Hbound.
    unfold entry in Hbound. revert Hbound. frame_simpl. rewrite lookup_empty. cbn. lia.
  - rewrite (parse_loop_parameters _ key _ _ _ Hloop) in Hbound.
    unfold entry in Hbound. revert Hbound. frame_simpl. rewrite lookup_empty.
    by destruct (parameters options key argv).
Qed.

Lemma X4_appearances_within_maximum_witness :
  let port := Option_t ["--port"; "-p"] 0 1 false ["8080"] in
  let join := option_t_new (Names ["--join"]) OPTIONAL_REPEAT in
  Z.of_nat (appearances [port; join] "--port" ["--join"; "a"; "-p"; "1"; "--join"; "b"]) ≤ 1.
Proof.
  intros port join.
  refine (proj1 (X4_appearances_within_maximum
                   ["--join"; "a"; "-p"; "1"; "--join"; "b"] [port; join] None ∅ None
                   (parse_command_line ["--join"; "a"; "-p"; "1"; "--join"; "b"]
                      [port; join] ∅).2.2 "--port" 1 _ _ _)).
  - vm_compute. reflexivity.
  - lia.
  - intros o Ho Hhead. apply list_elem_of_In in Ho. simpl in Ho.
    destruct Ho as [<-|[<-|[]]]; [reflexivity | discriminate].
Defined.

Lemma parse_loop_values options argv s s1 :
  parse_loop options argv s = (Returned tt, s1) →
  ∀ key v x,
    names_by_values s1 !! key = Some v → x ∈ v →
    x ∈ default [] (names_by_values s !! key) ∨
    x = EmptyString ∨
    (x ∈ argv ∧ looks_like_option_name x = false).
Proof.
  revert argv s s1.
  apply (parse_loop_ind options
           (λ argv s r, ∀ s1, r = (Returned tt, s1) →
              ∀ key v x,
                names_by_values s1 !! key = Some v → x ∈ v →
                x ∈ default [] (names_by_values s !! key) ∨
                x = EmptyString ∨
                (x ∈ argv ∧ looks_like_option_name x = false)));
    try discriminate.
  - intros s s1 [= <-] key v x Hv Hx. left. by rewrite Hv.
  - intros t rest s old Hfind Hout s' IH s1 Hrun key v x Hv Hx.
    destruct (IH s1 Hrun key v x Hv Hx) as [H|[H|[H1 H2]]]; [by left | by right; left |].
    right. right. split; [by right | done].
  - intros t rest s o k ns Hfind Hnames Hcount Hflag s' IH s1 Hrun key v x Hv Hx.
    destruct (IH s1 Hrun key v x Hv Hx) as [H|[H|[H1 H2]]]; [| by right; left |].
    + subst s'. revert H. frame_simpl. destruct (decide (k = key)) as [->|Hk].
      * rewrite lookup_pushed. cbn [from_option id].
        intros [H|H%list_elem_of_singleton]%elem_of_app; [by left | by right; left].
      * rewrite lookup_pushed_ne by done. by left.
    + right. right. split; [by right | done].
  - intros t p rest s o k ns Hfind Hnames Hcount Hflag Hp s' IH s1 Hrun key v x Hv Hx.
    destruct (IH s1 Hrun key v x Hv Hx) as [H|[H|[H1 H2]]]; [| by right; left |].
    + subst s'. revert H. frame_simpl. destruct (decide (k = key)) as [->|Hk].
      * rewrite lookup_pushed. cbn [from_option id].
        intros [H|H%list_elem_of_singleton]%elem_of_app; [by left |].
        subst x. right. right. split; [right; left | done].
      * rewrite lookup_pushed_ne by done. by left.
    + right. right. split; [right; by right | done].
Qed.

(** When [do_parse_command_line] returns, every value in the result is the
    empty string, or a token of the command line that does not begin with
    ['-'], or belongs to the [default_values] of a declared option with
    [min_appearances == 0] whose official name is the key. *)
Theorem X5_values_of_the_result argv options uo mo uo' result key v x :
  do_parse_command_line argv options uo mo = (Returned tt, (uo', result)) →
  result !! key = Some v →
  x ∈ v →
  x = EmptyString ∨
  (x ∈ argv ∧ looks_like_option_name x = false) ∨
  (∃ o, o ∈ options ∧ min_appearances o = 0 ∧ head (names o) = Some key ∧
        v = default_values o).
Proof.
  intros Hcall Hv Hx.
  destruct (do_parse_command_line_returned _ _ _ _ _ _ Hcall)
    as (s1 & Hloop & _ & Hlook & _).
  rewrite Hlook in Hv. destruct (names_by_values s1 !! key) as [v'|] eqn:Hs1.
  - injection Hv as ->.
    destruct (parse_loop_values _ _ _ _ Hloop key v x Hs1 Hx) as [H|[H|H]].
    + revert H. unfold entry. frame_simpl. rewrite lookup_empty. cbn. by intros ?%elem_of_nil.
    + by left.
    + right. by left.
  - right. right. by apply first_default_elem.
Qed.

Lemma X5_values_of_the_result_witness :
  let host := option_t_new (Names ["--host"]) MANDATORY in
  "example" = EmptyString ∨
  ("example" ∈ ["--host"; "example"] ∧ looks_like_option_name "example" = false) ∨
  (∃ o, o ∈ [host] ∧ min_appearances o = 0 ∧ head (names o) = Some "--host" ∧
        ["example"] = default_values o).
Proof.
  intros host.
  apply (X5_values_of_the_result ["--host"; "example"] [host] None ∅ None
           {["--host" := ["example"]]} "--host" ["example"] "example").
  - vm_compute. reflexivity.
  - vm_compute. reflexivity.
  - left.
Defined.




(** ** The unrecognized tokens *)

Lemma parse_loop_unrecognized options argv s s1 :
  parse_loop options argv s = (Returned tt, s1) →
  match unrecognized_out s with
  | Some _ => unrecognized s1 = unrecognized s ++ unmatched options argv
  | None => unrecognized s1 = unrecognized s ∧ unmatched options argv = []
  end.
Proof.
  revert argv s s1.
  apply (parse_loop_ind options
           (λ argv s r, ∀ s1, r = (Returned tt, s1) →
              match unrecognized_out s with
              | Some _ => unrecognized s1 = unrecognized s ++ unmatched options argv
              | None => unrecognized s1 = unrecognized s ∧ unmatched options argv = []
              end)); try discriminate.
  - intros s s1 [= <-]. destruct (unrecognized_out s); [by rewrite app_nil_r | done].
  - intros t rest s old Hfind Hout s' IH s1 Hrun. specialize (IH s1 Hrun).
    subst s'. revert IH. frame_simpl. rewrite Hout. cbn [unmatched]. rewrite Hfind.
    intros ->. by rewrite <- app_assoc.
  - intros t rest s o k ns Hfind Hnames Hcount Hflag s' IH s1 Hrun.
    specialize (IH s1 Hrun). cbn [unmatched]. by rewrite Hfind, Hflag.
  - intros t p rest s o k ns Hfind Hnames Hcount Hflag Hp s' IH s1 Hrun.
    specialize (IH s1 Hrun). cbn [unmatched]. by rewrite Hfind, Hflag.
Qed.

(** When [parse_command_line_and_collect_unrecognized] returns, the vector
    behind [unrecognized_out] holds the tokens read as option names that match
    no declared option, in the order of the command line, and nothing of what
    it held before.  When [parse_command_line] returns there is no such
    token. *)
Theorem X7_unrecognized_tokens_in_order :
  (∀ argv options old mo uo' result,
     parse_command_line_and_collect_unrecognized argv options old mo
       = (Returned tt, (uo', result)) →
     uo' = Some (unmatched options argv)) ∧
  (∀ argv options mo uo' result,
     parse_command_line argv options mo = (Returned tt, (uo', result)) →
     uo' = None ∧ unmatched options argv = []).
Proof.
  split.
  - intros argv options old mo uo' result Hcall.
    destruct (do_parse_command_line_returned _ _ _ _ _ _ Hcall)
      as (s1 & Hloop & -> & _).
    by rewrite (parse_loop_unrecognized _ _ _ _ Hloop).
  - intros argv options mo uo' result Hcall.
    destruct (do_parse_command_line_returned _ _ _ _ _ _ Hcall)
      as (s1 & Hloop & -> & _).
    split; [done |]. by destruct (parse_loop_unrecognized _ _ _ _ Hloop).
Qed.

Lemma X7_unrecognized_tokens_in_order_witness :
  let host := option_t_new (Names ["--host"]) MANDATORY in
  (parse_command_line_and_collect_unrecognized
     ["stray"; "--host"; "a"; "-q"] [host] ["old"] ∅).2.1 = Some ["stray"; "-q"].
Proof.
  intros host.
  apply (proj1 X7_unrecognized_tokens_in_order
           ["stray"; "--host"; "a"; "-q"] [host] ["old"] ∅ _
           (parse_command_line_and_collect_unrecognized
              ["stray"; "--host"; "a"; "-q"] [host] ["old"] ∅).2.2).
  vm_compute. reflexivity.
Defined.

(** ** The errors *)

Lemma error_is_sound_cons options t argv uo e :
  error_is_sound options argv uo e → error_is_sound options (t :: argv) uo e.
Proof.
  destruct e as [n|n|n max|n|n p]; cbn.
  - intros (? & ? & ? & ?). repeat split; [done | by right | done..].
  - intros (? & ? & ? & ?). repeat split; [done | by right | done..].
  - intros (? & ?). split; [by right | done].
  - intros (Hlast & ?). split; [| done]. destruct argv; [done | exact Hlast].
  - intros ((before & after & ->) & ?). split; [| done]. by exists (t :: before), after.
Qed.

Lemma parse_loop_error_is_sound options argv s e :
  (parse_loop options argv s).1 = Thrown e →
  error_is_sound options argv (unrecognized_out s) e.
Proof.
  revert argv s.
  apply (parse_loop_ind options
           (λ argv s r, r.1 = Thrown e →
                        error_is_sound options argv (unrecognized_out s) e));
    try discriminate.
  - intros t rest s old Hfind Hout s' IH Hthrow. by apply error_is_sound_cons, IH.
  - intros t rest s Hfind Hout Ht [= <-]. cbn. repeat split; [done | left | done..].
  - intros t rest s Hfind Hout Ht [= <-]. cbn. repeat split; [done | left | done..].
  - intros t rest s o k ns Hfind Hnames Hcount [= <-]. cbn. split; [left | by exists o].
  - intros t rest s o k ns Hfind Hnames Hcount Hflag s' IH Hthrow.
    by apply error_is_sound_cons, IH.
  - intros t s o k ns Hfind Hnames Hcount Hflag [= <-]. cbn. split; [done | by exists o].
  - intros t p rest s o k ns Hfind Hnames Hcount Hflag Hp [= <-]. cbn.
    split; [by exists [], rest |]. split; [done | by exists o].
  - intros t p rest s o k ns Hfind Hnames Hcount Hflag Hp s' IH Hthrow.
    by apply error_is_sound_cons, error_is_sound_cons, IH.
Qed.

(** Every error of [do_parse_command_line] is about the command line it was
    given.  "Unrecognized option" and "unexpected unnamed value" name a token
    that matches no declared option, the first beginning with ['-'] and the
    second not, and are thrown only when no unrecognized tokens are collected;
    "appears too many times" names a token that matches a declared option and
    carries its [max_appearances]; "missing its parameter" names the last
    token, which matches an option taking a parameter; "looks like another
    option name" names such a token and the token right after it, which
    begins with ['-']. *)
Theorem X8_errors_are_sound argv options uo mo e :
  (do_parse_command_line argv options uo mo).1 = Thrown e →
  error_is_sound options argv uo e.
Proof.
  intros Hthrow. apply do_parse_command_line_thrown in Hthrow.
  by apply (parse_loop_error_is_sound options argv (entry uo mo)).
Qed.

Lemma X8_errors_are_sound_witness :
  let host := option_t_new (Names ["--host"]) MANDATORY in
  error_is_sound [host] ["stray"; "--host"] (Some []) (MissingParameter "--host").
Proof.
  intros host.
  apply (X8_errors_are_sound ["stray"; "--host"] [host] (Some []) ∅). reflexivity.
Defined.

Lemma parse_loop_throw_app options rest before s e :
  (parse_loop options before s).1 = Thrown e →
  (∀ n, e ≠ MissingParameter n) →
  parse_loop options (before ++ rest) s = parse_loop options before s.
Proof.
  revert before s.
  apply (parse_loop_ind options
           (λ before s r, r.1 = Thrown e → (∀ n, e ≠ MissingParameter n) →
                          parse_loop options (before ++ rest) s = r));
    try discriminate.
  - intros t before s old Hfind Hout s' IH Hthrow Hne.
    change ((t :: before) ++ rest) with (t :: (before ++ rest)).
    rewrite (parse_loop_unmatched _ _ _ _ Hfind), Hout. by apply IH.
  - intros t before s Hfind Hout Ht _ _.
    change ((t :: before) ++ rest) with (t :: (before ++ rest)).
    by rewrite (parse_loop_unmatched _ _ _ _ Hfind), Hout, Ht.
  - intros t before s Hfind Hout Ht _ _.
    change ((t :: before) ++ rest) with (t :: (before ++ rest)).
    by rewrite (parse_loop_unmatched _ _ _ _ Hfind), Hout, Ht.
  - intros t before s o k ns Hfind Hnames Hcount _ _.
    change ((t :: before) ++ rest) with (t :: (before ++ rest)).
    rewrite (parse_loop_matched _ _ _ _ _ _ _ Hfind Hnames). cbv zeta.
    by rewrite bool_decide_eq_true_2.
  - intros t before s o k ns Hfind Hnames Hcount Hflag s' IH Hthrow Hne.
    change ((t :: before) ++ rest) with (t :: (before ++ rest)).
    rewrite (parse_loop_matched _ _ _ _ _ _ _ Hfind Hnames). cbv zeta.
    rewrite bool_decide_eq_false_2 by exact Hcount. rewrite Hflag. by apply IH.
  - intros t s o k ns Hfind Hnames Hcount Hflag [= <-] Hne. by destruct (Hne t).
  - intros t p before s o k ns Hfind Hnames Hcount Hflag Hp _ _.
    change ((t :: p :: before) ++ rest) with (t :: p :: (before ++ rest)).
    rewrite (parse_loop_matched _ _ _ _ _ _ _ Hfind Hnames). cbv zeta.
    rewrite bool_decide_eq_false_2 by exact Hcount. by rewrite Hflag, Hp.
  - intros t p before s o k ns Hfind Hnames Hcount Hflag Hp s' IH Hthrow Hne.
    change ((t :: p :: before) ++ rest) with (t :: p :: (before ++ rest)).
    rewrite (parse_loop_matched _ _ _ _ _ _ _ Hfind Hnames). cbv zeta.
    rewrite bool_decide_eq_false_2 by exact Hcount. rewrite Hflag, Hp. by apply IH.
Qed.

(** The loop stops at the first token in error: an error other than "missing
    its parameter" stays the same error whatever tokens are added at the end
    of the command line. *)
Theorem X9_error_stays_when_tokens_are_added argv rest options uo mo e :
  (do_parse_command_line argv options uo mo).1 = Thrown e →
  (∀ n, e ≠ MissingParameter n) →
  (do_parse_command_line (argv ++ rest) options uo mo).1 = Thrown e.
Proof.
  rewrite !do_parse_command_line_thrown. intros Hthrow Hne.
  by rewrite (parse_loop_throw_app options rest argv (entry uo mo) e Hthrow Hne).
Qed.

Lemma X9_error_stays_when_tokens_are_added_witness :
  let verbose := option_t_new (Names ["--verbose"]) OPTIONAL_NO_PARAMETER in
  (parse_command_line (["--verbose"; "-q"] ++ ["--verbose"; "x"]) [verbose] ∅).1
    = Thrown (UnrecognizedOption "-q").
Proof.
  intros verbose.
  apply (X9_error_stays_when_tokens_are_added ["--verbose"; "-q"] ["--verbose"; "x"]
           [verbose] None ∅ (UnrecognizedOption "-q")); [reflexivity | discriminate].
Defined.

(** ** The output parameters *)

Lemma same_locals_set_unrecognized s s' u :
  same_locals s s' → same_locals (set_unrecognized u s) (set_unrecognized u s').
Proof. intros (Hm & Hu & Hout). split; [exact Hm | split; [reflexivity | exact Hout]]. Qed.

Lemma same_locals_set_names_by_values s s' m :
  same_locals s s' → same_locals (set_names_by_values m s) (set_names_by_values m s').
Proof. intros (Hm & Hu & Hout). split; [reflexivity | split; [exact Hu | exact Hout]]. Qed.

Lemma parse_loop_same_locals options argv s s' :
  same_locals s s' →
  (parse_loop options argv s').1 = (parse_loop options argv s).1 ∧
  same_locals (parse_loop options argv s).2 (parse_loop options argv s').2.
Proof.
  revert argv s s'.
  apply (parse_loop_ind options
           (λ argv s r, ∀ s', same_locals s s' →
              (parse_loop options argv s').1 = r.1 ∧
              same_locals r.2 (parse_loop options argv s').2)).
  - by intros s s' Hsame.
  - intros t rest s old Hfind Hout s1 IH s' Hsame.
    rewrite (parse_loop_unmatched _ _ _ _ Hfind).
    destruct Hsame as (Hm & Hu & Hsome).
    destruct (unrecognized_out s') as [old'|] eqn:Hout'.
    + apply IH. subst s1. rewrite <- Hu. apply same_locals_set_unrecognized.
      repeat split; [done.. | by rewrite Hout, Hout' | by rewrite Hout, Hout'].
    + rewrite Hout in Hsome. destruct (proj1 Hsome) as [? ?]; [by eexists | done].
  - intros t rest s Hfind Hout Ht s' Hsame.
    rewrite (parse_loop_unmatched _ _ _ _ Hfind).
    destruct (unrecognized_out s') as [old'|] eqn:Hout'.
    + destruct Hsame as (_ & _ & Hsome). rewrite Hout, Hout' in Hsome.
      destruct (proj2 Hsome) as [? ?]; [by eexists | done].
    + by rewrite Ht.
  - intros t rest s Hfind Hout Ht s' Hsame.
    rewrite (parse_loop_unmatched _ _ _ _ Hfind).
    destruct (unrecognized_out s') as [old'|] eqn:Hout'.
    + destruct Hsame as (_ & _ & Hsome). rewrite Hout, Hout' in Hsome.
      destruct (proj2 Hsome) as [? ?]; [by eexists | done].
    + by rewrite Ht.
  - intros t rest s o k ns Hfind Hnames Hcount s' Hsame.
    rewrite (parse_loop_matched _ _ _ _ _ _ _ Hfind Hnames). cbv zeta.
    pose proof Hsame as (Hm & _). rewrite <- Hm.
    rewrite bool_decide_eq_true_2 by done.
    split; [done |]. by apply same_locals_set_names_by_values.
  - intros t rest s o k ns Hfind Hnames Hcount Hflag s1 IH s' Hsame.
    rewrite (parse_loop_matched _ _ _ _ _ _ _ Hfind Hnames). cbv zeta.
    pose proof Hsame as (Hm & _). rewrite <- Hm.
    rewrite bool_decide_eq_false_2 by done. rewrite Hflag.
    apply IH. by apply same_locals_set_names_by_values.
  - intros t s o k ns Hfind Hnames Hcount Hflag s' Hsame.
    rewrite (parse_loop_matched _ _ _ _ _ _ _ Hfind Hnames). cbv zeta.
    pose proof Hsame as (Hm & _). rewrite <- Hm.
    rewrite bool_decide_eq_false_2 by done. rewrite Hflag.
    split; [done |]. by apply same_locals_set_names_by_values.
  - intros t p rest s o k ns Hfind Hnames Hcount Hflag Hp s' Hsame.
    rewrite (parse_loop_matched _ _ _ _ _ _ _ Hfind Hnames). cbv zeta.
    pose proof Hsame as (Hm & _). rewrite <- Hm.
    rewrite bool_decide_eq_false_2 by done. rewrite Hflag, Hp.
    split; [done |]. by apply same_locals_set_names_by_values.
  - intros t p rest s o k ns Hfind Hnames Hcount Hflag Hp s1 IH s' Hsame.
    rewrite (parse_loop_matched _ _ _ _ _ _ _ Hfind Hnames). cbv zeta.
    pose proof Hsame as (Hm & _). rewrite <- Hm.
    rewrite bool_decide_eq_false_2 by done. rewrite Hflag, Hp.
    apply IH. by apply same_locals_set_names_by_values.
Qed.

Lemma insert_defaults_same_locals options s s' :
  same_locals s s' →
  (insert_defaults options s').1 = (insert_defaults options s).1 ∧
  same_locals (insert_defaults options s).2 (insert_defaults options s').2.
Proof.
  revert s s'. induction options as [|it options IH]; intros s s' Hsame; [done |].
  rewrite !insert_defaults_cons. case_bool_decide; [| by apply IH].
  destruct (names it) as [|k ns]; [done |].
  pose proof Hsame as (Hm & _). rewrite <- Hm.
  destruct (names_by_values s !! k); [by apply IH |].
  apply IH. by apply same_locals_set_names_by_values.
Qed.

(** What [do_parse_command_line] does is the same whatever the two output
    parameters held before the call: the same return or the same throw, and,
    when it returns, the same map and the same unrecognized tokens. *)
Theorem X10_old_outputs_do_not_matter argv options uo mo uo' mo' :
  (is_Some uo ↔ is_Some uo') →
  (do_parse_command_line argv options uo' mo').1
    = (do_parse_command_line argv options uo mo).1 ∧
  ((do_parse_command_line argv options uo mo).1 = Returned tt →
   (do_parse_command_line argv options uo' mo').2
     = (do_parse_command_line argv options uo mo).2).
Proof.
  intros Hsome. rewrite !do_parse_command_line_unfold.
  assert (same_locals (entry uo mo) (entry uo' mo')) as Hsame
    by (split; [reflexivity | split; [reflexivity | exact Hsome]]).
  destruct (parse_loop_same_locals options argv _ _ Hsame) as [Hr Hs].
  destruct (parse_loop options argv (entry uo mo)) as [r1 s1].
  destruct (parse_loop options argv (entry uo' mo')) as [r1' s1'].
  cbn in Hr, Hs. subst r1'. destruct r1 as [[]|e|]; [| done..].
  destruct (insert_defaults_same_locals options _ _ Hs) as [Hr2 Hs2].
  destruct (insert_defaults options s1) as [r2 s2].
  destruct (insert_defaults options s1') as [r2' s2'].
  cbn in Hr2, Hs2. subst r2'. destruct r2 as [[]|e|]; [| done..].
  split; [done |]. intros _. destruct Hs2 as (-> & -> & Hout). cbn.
  destruct (unrecognized_out s2), (unrecognized_out s2'); try done.
  - destruct (proj1 Hout) as [? ?]; [by eexists | done].
  - destruct (proj2 Hout) as [? ?]; [by eexists | done].
Qed.

Lemma X10_old_outputs_do_not_matter_witness :
  let host := option_t_new (Names ["--host"]) MANDATORY in
  (do_parse_command_line ["--host"; "a"; "b"] [host] (Some ["old"]) {["k" := ["v"]]}).2
    = (do_parse_command_line ["--host"; "a"; "b"] [host] (Some []) ∅).2.
Proof.
  intros host.
  apply (X10_old_outputs_do_not_matter ["--host"; "a"; "b"] [host] (Some []) ∅
           (Some ["old"]) {["k" := ["v"]]}).
  - split; intros _; by eexists.
  - reflexivity.
Defined.

(** ** Reading [names[0]] *)

Lemma parse_loop_in_range options argv s : (parse_loop options argv s).1 ≠ OutOfRange.
Proof.
  revert argv s.
  apply (parse_loop_ind options (λ _ _ r, r.1 ≠ OutOfRange)); try done.
Qed.

(** [do_parse_command_line] reads [names[0]] of an option without a name only
    in the loop over the defaults, for an option with [min_appearances == 0],
    and only when the parsing loop has returned; when every such option has a
    name the call returns or throws a [parse_error_t]. *)
Theorem X11_names_are_read_in_range argv options uo mo :
  ((do_parse_command_line argv options uo mo).1 = OutOfRange →
   (∃ s1, parse_loop options argv (entry uo mo) = (Returned tt, s1)) ∧
   ∃ o, o ∈ options ∧ min_appearances o = 0 ∧ names o = []) ∧
  ((∀ o, o ∈ options → min_appearances o = 0 → names o ≠ []) →
   (do_parse_command_line argv options uo mo).1 ≠ OutOfRange).
Proof.
  assert ((do_parse_command_line argv options uo mo).1 = OutOfRange →
          (∃ s1, parse_loop options argv (entry uo mo) = (Returned tt, s1)) ∧
          ∃ o, o ∈ options ∧ min_appearances o = 0 ∧ names o = []) as Hout.
  { rewrite do_parse_command_line_unfold.
    pose proof (parse_loop_in_range options argv (entry uo mo)) as Hloop.
    destruct (parse_loop options argv (entry uo mo)) as [[[]|e|] s1]; [| done..].
    pose proof (insert_defaults_spec options s1) as Hdef.
    destruct (insert_defaults options s1) as [[[]|e|] s2]; [done.. |].
    intros _. split; [by exists s1 |]. by destruct Hdef as (_ & _ & Ho). }
  split; [exact Hout |].
  intros Hwf Hrange. destruct (Hout Hrange) as (_ & o & Ho & Hmin & Hnil).
  by apply (Hwf o).
Qed.

Lemma X11_names_are_read_in_range_witness :
  let host := option_t_new (Names ["--host"]) MANDATORY in
  (parse_command_line ["--host"] [host] ∅).1 ≠ OutOfRange.
Proof.
  intros host.
  apply (proj2 (X11_names_are_read_in_range ["--host"] [host] None ∅)).
  intros o Ho Hmin. apply list_elem_of_In in Ho. simpl in Ho.
  destruct Ho as [<-|[]]. discriminate.
Defined.

(** ** Splitting at spaces *)

Lemma string_app_cons x (a b : string) : String x a +:+ b = String x (a +:+ b).
Proof. reflexivity. Qed.

Lemma string_app_assoc (a b c : string) : (a +:+ b) +:+ c = a +:+ (b +:+ c).
Proof.
  induction a as [|x a IH]; [done |]. rewrite !string_app_cons. by rewrite IH.
Qed.

Lemma string_app_nil_r (a : string) : a +:+ EmptyString = a.
Proof. induction a as [|x a IH]; [done |]. rewrite string_app_cons. by rewrite IH. Qed.

Lemma no_space_app a b : no_space (a +:+ b) = no_space a && no_space b.
Proof.
  induction a as [|x a IH]; [done |]. rewrite string_app_cons. cbn [no_space].
  rewrite IH. by destruct (isspace x).
Qed.

Lemma is_word_snoc word c :
  isspace c = false →
  word = EmptyString ∨ is_word word →
  is_word (word +:+ String c EmptyString).
Proof.
  intros Hc Hword. split.
  - by destruct word.
  - rewrite no_space_app. cbn. rewrite Hc. cbn.
    destruct Hword as [->|[_ ->]]; done.
Qed.

(** The two loops of [split_by_spaces] keep the words found so far and add
    words only. *)
Lemma split_loops_words s :
  (∀ ret, Forall is_word ret → Forall is_word (skip_spaces s ret)) ∧
  (∀ word ret, is_word word → Forall is_word ret →
               Forall is_word (take_word s word ret)).
Proof.
  induction s as [|c s [IHskip IHword]]; split.
  - done.
  - intros word ret Hword Hret. cbn. apply Forall_app. split; [done |].
    by apply Forall_singleton.
  - intros ret Hret. cbn. destruct (isspace c) eqn:Hc; [by apply IHskip |].
    apply IHword; [| done]. apply (is_word_snoc EmptyString c Hc). by left.
  - intros word ret Hword Hret. cbn. destruct (isspace c) eqn:Hc.
    + apply IHskip. apply Forall_app. split; [done |]. by apply Forall_singleton.
    + apply IHword; [| done]. apply is_word_snoc; [done | by right].
Qed.

(** Every word that [split_by_spaces] returns has at least one character and
    none for which [isspace] holds. *)
Theorem X12_words_have_no_space s word :
  word ∈ split_by_spaces s → word ≠ EmptyString ∧ no_space word = true.
Proof.
  intros Hin.
  pose proof (proj1 (split_loops_words s) [] (Forall_nil_2 _)) as Hall.
  by apply (proj1 (Forall_forall _ _) Hall).
Qed.

Lemma X12_words_have_no_space_witness :
  "world" ≠ EmptyString ∧ no_space "world" = true.
Proof.
  apply (X12_words_have_no_space " hello  world " "world").
  change (split_by_spaces " hello  world ") with ["hello"; "world"]. right. left.
Defined.

(** Both loops only append to [ret]. *)
Lemma split_loops_ret s :
  (∀ ret, skip_spaces s ret = ret ++ skip_spaces s []) ∧
  (∀ word ret, take_word s word ret = ret ++ take_word s word []).
Proof.
  induction s as [|c s [IHskip IHword]]; split.
  - intros ret. cbn. by rewrite app_nil_r.
  - done.
  - intros ret. cbn. destruct (isspace c); [apply IHskip | apply IHword].
  - intros word ret. cbn. destruct (isspace c); [| apply IHword].
    rewrite (IHskip (ret ++ [word])), (IHskip [word]). by rewrite <- app_assoc.
Qed.

Lemma split_loops_app a c b :
  isspace c = true →
  (∀ ret, skip_spaces (a +:+ String c b) ret = skip_spaces b (skip_spaces a ret)) ∧
  (∀ word ret, take_word (a +:+ String c b) word ret = skip_spaces b (take_word a word ret)).
Proof.
  intros Hc. induction a as [|x a [IHskip IHword]]; split.
  - intros ret. change (EmptyString +:+ String c b) with (String c b).
    cbn [skip_spaces]. by rewrite Hc.
  - intros word ret. change (EmptyString +:+ String c b) with (String c b).
    cbn [skip_spaces take_word]. by rewrite Hc.
  - intros ret. rewrite string_app_cons. cbn [skip_spaces].
    destruct (isspace x); [apply IHskip | apply IHword].
  - intros word ret. rewrite string_app_cons. cbn [take_word].
    destruct (isspace x); [apply IHskip | apply IHword].
Qed.

(** Splitting two strings put together with a space character between them
    gives the words of the first followed by the words of the second. *)
Theorem X13_split_by_spaces_of_two_parts a c b :
  isspace c = true →
  split_by_spaces (a +:+ String c b) = split_by_spaces a ++ split_by_spaces b.
Proof.
  intros Hc. unfold split_by_spaces.
  rewrite (proj1 (split_loops_app a c b Hc)).
  apply (proj1 (split_loops_ret b)).
Qed.

Lemma X13_split_by_spaces_of_two_parts_witness :
  split_by_spaces ("ab  cd" +:+ String "009" " ef ")
  = split_by_spaces "ab  cd" ++ split_by_spaces " ef ".
Proof.
  apply (X13_split_by_spaces_of_two_parts "ab  cd" "009" " ef "). reflexivity.
Defined.

Lemma concat_empty_cons x xs :
  String.concat EmptyString (x :: xs) = x +:+ String.concat EmptyString xs.
Proof. destruct xs; [by rewrite string_app_nil_r | reflexivity]. Qed.

Lemma concat_empty_app l1 l2 :
  String.concat EmptyString (l1 ++ l2)
  = String.concat EmptyString l1 +:+ String.concat EmptyString l2.
Proof.
  induction l1 as [|x l1 IH]; [done |].
  change ((x :: l1) ++ l2) with (x :: (l1 ++ l2)).
  by rewrite !concat_empty_cons, IH, string_app_assoc.
Qed.

Lemma split_loops_strip s :
  String.concat EmptyString (skip_spaces s []) = strip_spaces s ∧
  (∀ word, String.concat EmptyString (take_word s word []) = word +:+ strip_spaces s).
Proof.
  induction s as [|c s [IHskip IHword]]; split.
  - done.
  - intros word. cbn. by rewrite string_app_nil_r.
  - cbn. destruct (isspace c); [done |]. by rewrite IHword.
  - intros word. cbn. destruct (isspace c).
    + rewrite (proj1 (split_loops_ret s)), concat_empty_app, IHskip. done.
    + by rewrite IHword, string_app_assoc.
Qed.

(** The words that [split_by_spaces] returns, put end to end, are the string
    without its space characters: no other character is lost, added or
    moved. *)
Theorem X14_words_are_the_string_without_spaces s :
  String.concat EmptyString (split_by_spaces s) = strip_spaces s.
Proof. apply split_loops_strip. Qed.

Lemma take_word_app w rest word ret :
  no_space w = true →
  take_word (w +:+ rest) word ret = take_word rest (word +:+ w) ret.
Proof.
  revert word. induction w as [|c w IH]; intros word Hw.
  - by rewrite string_app_nil_r.
  - cbn in Hw. apply andb_prop in Hw as [Hc Hw]. apply negb_true_iff in Hc.
    rewrite string_app_cons. cbn [take_word]. rewrite Hc, (IH _ Hw).
    by rewrite string_app_assoc.
Qed.

Lemma skip_spaces_word w rest ret :
  is_word w → skip_spaces (w +:+ rest) ret = take_word rest w ret.
Proof.
  intros [Hne Hw]. destruct w as [|c w]; [done |].
  cbn in Hw. apply andb_prop in Hw as [Hc Hw]. apply negb_true_iff in Hc.
  rewrite string_app_cons. cbn [skip_spaces]. rewrite Hc. by rewrite take_word_app.
Qed.

Lemma skip_spaces_concat ws ret :
  Forall is_word ws → skip_spaces (String.concat " " ws) ret = ret ++ ws.
Proof.
  revert ret. induction ws as [|w ws IH]; intros ret Hws.
  - cbn. by rewrite app_nil_r.
  - apply Forall_cons in Hws as [Hw Hws]. destruct ws as [|w' ws].
    + cbn [String.concat].
      replace (skip_spaces w ret) with (skip_spaces (w +:+ EmptyString) ret)
        by by rewrite string_app_nil_r.
      by rewrite skip_spaces_word.
    + change (String.concat " " (w :: w' :: ws))
        with (w +:+ String " " (String.concat " " (w' :: ws))).
      rewrite skip_spaces_word by done. cbn [take_word isspace].
      change (isspace " ") with true. cbv iota.
      rewrite (IH _ Hws). by rewrite <- app_assoc.
Qed.

(** Words put together with one space between them split into the same
    words. *)
Theorem X15_split_by_spaces_of_joined_words ws :
  (∀ w, w ∈ ws → w ≠ EmptyString ∧ no_space w = true) →
  split_by_spaces (String.concat " " ws) = ws.
Proof.
  intros Hws. unfold split_by_spaces.
  by rewrite skip_spaces_concat by by apply Forall_forall.
Qed.

Lemma X15_split_by_spaces_of_joined_words_witness :
  split_by_spaces (String.concat " " ["--port"; "<n>"]) = ["--port"; "<n>"].
Proof.
  apply (X15_split_by_spaces_of_joined_words ["--port"; "<n>"]).
  intros w Hw. apply list_elem_of_In in Hw. simpl in Hw.
  destruct Hw as [<-|[<-|[]]]; (split; [discriminate | reflexivity]).
Defined.

(** ** Wrapping *)

Lemma join_cons x l :
  l ≠ [] → String.concat " " (x :: l) = x +:+ " " +:+ String.concat " " l.
Proof. by destruct l. Qed.

Lemma join_merge l a b r :
  String.concat " " (l ++ (a +:+ " " +:+ b) :: r) = String.concat " " (l ++ a :: b :: r).
Proof.
  induction l as [|x l IH].
  - cbn [app]. rewrite (join_cons a (b :: r)) by done. destruct r as [|y r]; [done |].
    rewrite !join_cons by done. by rewrite !string_app_assoc.
  - change ((x :: l) ++ ?t) with (x :: (l ++ t)).
    rewrite !join_cons by by destruct l. by rewrite IH.
Qed.

Lemma size_join_head x l : size x ≤ size (String.concat " " (x :: l)).
Proof.
  destruct l as [|y l]; [done |]. rewrite join_cons by done. rewrite !size_app.
  unfold size. lia.
Qed.

Lemma word_wrap_loop_cons width word words st :
  word_wrap_loop width (word :: words) st
  = word_wrap_loop width words (word_wrap_step width st word).
Proof. reflexivity. Qed.

(** Once a line is in progress: the lines made are the words joined with
    one space, broken at some of the spaces. *)
Lemma word_wrap_loop_started width words ret current_line :
  current_line ≠ EmptyString →
  Forall (λ word, word ≠ EmptyString) words →
  Forall (λ line, line ≠ EmptyString) ret →
  let '(ret', current_line') := word_wrap_loop width words (ret, current_line) in
  String.concat " " (ret' ++ [current_line'])
    = String.concat " " (ret ++ current_line :: words) ∧
  current_line' ≠ EmptyString ∧
  Forall (λ line, line ≠ EmptyString) ret' ∧
  (length ret' ≤ length ret + length words)%nat.
Proof.
  revert ret current_line.
  induction words as [|word words IH]; intros ret current_line Hcur Hwords Hret.
  - cbn. repeat split; [done.. | lia].
  - apply Forall_cons in Hwords as [Hword Hwords].
    rewrite word_wrap_loop_cons. unfold word_wrap_step.
    rewrite bool_decide_eq_false_2 by done. case_bool_decide as Hfit.
    + specialize (IH ret (current_line +:+ " " +:+ word)).
      destruct (word_wrap_loop width words (ret, current_line +:+ " " +:+ word))
        as [ret' current_line'].
      destruct IH as (Hjoin & Hcur' & Hret' & Hlen); [by destruct current_line | done.. |].
      rewrite Hjoin, join_merge. repeat split; [done.. |]. cbn [length]. lia.
    + specialize (IH (ret ++ [current_line]) word).
      destruct (word_wrap_loop width words (ret ++ [current_line], word))
        as [ret' current_line'].
      destruct IH as (Hjoin & Hcur' & Hret' & Hlen); [done.. | |].
      { apply Forall_app. split; [done |]. by apply Forall_singleton. }
      rewrite Hjoin, <- app_assoc. repeat split; [done.. |].
      rewrite length_app in Hlen. cbn [length] in *. lia.
Qed.

Lemma split_by_spaces_nonempty_words s :
  Forall (λ word, word ≠ EmptyString) (split_by_spaces s).
Proof.
  pose proof (proj1 (split_loops_words s) [] (Forall_nil_2 _)) as Hall.
  apply Forall_forall. intros word Hin.
  by apply (proj1 (Forall_forall _ _) Hall).
Qed.

(** [word_wrap] only chooses where to break: for every width, its lines put
    together with one space between them are the words of the string put
    together with one space between them. *)
Theorem X16_lines_joined_are_words_joined s w :
  String.concat " " (word_wrap s w) = String.concat " " (split_by_spaces s).
Proof.
  unfold word_wrap. pose proof (split_by_spaces_nonempty_words s) as Hwords.
  destruct (split_by_spaces s) as [|word words]; [done |].
  apply Forall_cons in Hwords as [Hword Hwords].
  rewrite word_wrap_loop_cons. cbn [word_wrap_step]. rewrite bool_decide_eq_true_2 by done.
  pose proof (word_wrap_loop_started w words [] word Hword Hwords (Forall_nil_2 _)) as Hloop.
  destruct (word_wrap_loop w words ([], word)) as [ret current_line].
  by destruct Hloop as (-> & _).
Qed.

(** [word_wrap] returns at least one line; when the string has a word it
    returns no more lines than words and no empty line. *)
Theorem X17_number_of_lines s w :
  (1 ≤ length (word_wrap s w))%nat ∧
  (split_by_spaces s ≠ [] →
   (length (word_wrap s w) ≤ length (split_by_spaces s))%nat ∧
   ∀ line, line ∈ word_wrap s w → line ≠ EmptyString).
Proof.
  unfold word_wrap. pose proof (split_by_spaces_nonempty_words s) as Hwords.
  destruct (split_by_spaces s) as [|word words].
  - split; [cbn; lia | done].
  - apply Forall_cons in Hwords as [Hword Hwords].
    rewrite word_wrap_loop_cons. cbn [word_wrap_step].
    rewrite bool_decide_eq_true_2 by done.
    pose proof (word_wrap_loop_started w words [] word Hword Hwords (Forall_nil_2 _))
      as Hloop.
    destruct (word_wrap_loop w words ([], word)) as [ret current_line].
    destruct Hloop as (_ & Hcur & Hret & Hlen).
    rewrite length_app. cbn [length] in *. split; [lia |].
    intros _. split; [lia |]. intros line Hline.
    apply elem_of_app in Hline as [Hline|Hline%list_elem_of_singleton].
    + by apply (proj1 (Forall_forall _ _) Hret).
    + by subst line.
Qed.

Lemma X17_number_of_lines_witness :
  (length (word_wrap "aa bb cc" 5) ≤ length (split_by_spaces "aa bb cc"))%nat.
Proof.
  apply (proj2 (X17_number_of_lines "aa bb cc" 5)). discriminate.
Defined.

Lemma word_wrap_loop_fits width words current_line :
  current_line ≠ EmptyString →
  size (String.concat " " (current_line :: words)) ≤ width →
  word_wrap_loop width words ([], current_line)
  = ([], String.concat " " (current_line :: words)).
Proof.
  revert current_line. induction words as [|word words IH]; intros current_line Hcur Hfit.
  - done.
  - rewrite word_wrap_loop_cons. unfold word_wrap_step.
    rewrite bool_decide_eq_false_2 by done.
    pose proof (size_join_head word words) as Hhead.
    rewrite join_cons in Hfit by done. rewrite !size_app in Hfit.
    change (size " ") with 1 in Hfit.
    rewrite bool_decide_eq_true_2 by lia.
    pose proof (join_merge [] current_line word words) as Hmerge. cbn [app] in Hmerge.
    rewrite IH.
    + by rewrite Hmerge.
    + by destruct current_line.
    + rewrite Hmerge, join_cons by done. rewrite !size_app.
      change (size " ") with 1. lia.
Qed.

(** A string whose words, put together with one space between them, are no
    longer than the width is wrapped into that one line. *)
Theorem X18_text_that_fits_is_one_line s w :
  size (String.concat " " (split_by_spaces s)) ≤ w →
  word_wrap s w = [String.concat " " (split_by_spaces s)].
Proof.
  intros Hfit. unfold word_wrap.
  pose proof (split_by_spaces_nonempty_words s) as Hwords.
  destruct (split_by_spaces s) as [|word words]; [done |].
  apply Forall_cons in Hwords as [Hword Hwords].
  rewrite word_wrap_loop_cons. cbn [word_wrap_step]. rewrite bool_decide_eq_true_2 by done.
  by rewrite word_wrap_loop_fits.
Qed.

Lemma X18_text_that_fits_is_one_line_witness :
  word_wrap "  the   port to listen on " 21 = ["the port to listen on"].
Proof.
  apply (X18_text_that_fits_is_one_line "  the   port to listen on " 21).
  vm_compute. discriminate.
Defined.

(** ** The columns of the help text *)






(** ** Where the lines are broken *)

Lemma chain_snoc_replace R l a a' :
  chain R (l ++ [a]) → (∀ x, R x a → R x a') → chain R (l ++ [a']).
Proof.
  intros Hchain Hrep. induction l as [|x l IH]; [done |].
  destruct l as [|y l]; cbn in *.
  - split; [| done]. apply Hrep. by destruct Hchain.
  - destruct Hchain as [Hxy Hchain]. split; [done | by apply IH].
Qed.

Lemma chain_snoc R l a b :
  chain R (l ++ [a]) → R a b → chain R (l ++ [a; b]).
Proof.
  intros Hchain Hab. induction l as [|x l IH]; [done |].
  destruct l as [|y l]; cbn in *.
  - destruct Hchain as [Hxa _]. by repeat split.
  - destruct Hchain as [Hxy Hchain]. split; [done | by apply IH].
Qed.

Lemma chain_neighbours R before a b after :
  chain R (before ++ a :: b :: after) → R a b.
Proof.
  induction before as [|x before IH]; [by intros [? _] |].
  destruct before as [|y before]; cbn; intros [_ Hchain]; by apply IH.
Qed.

Lemma word_wrap_loop_breaks width (all words : list string) ret current_line :
  current_line ≠ EmptyString →
  Forall (λ word, word ≠ EmptyString) words →
  (∀ word, word ∈ words → word ∈ all) →
  chain (needed_break width all) (ret ++ [current_line]) →
  let '(ret', current_line') := word_wrap_loop width words (ret, current_line) in
  chain (needed_break width all) (ret' ++ [current_line']).
Proof.
  revert ret current_line.
  induction words as [|word words IH]; intros ret current_line Hcur Hwords Hall Hchain;
    [done |].
  apply Forall_cons in Hwords as [Hword Hwords].
  rewrite word_wrap_loop_cons. unfold word_wrap_step.
  rewrite bool_decide_eq_false_2 by done.
  assert (∀ word', word' ∈ words → word' ∈ all) as Hall'
    by (intros word' Hin; apply Hall; by right).
  case_bool_decide as Hfit.
  - apply IH; [by destruct current_line | done | done |].
    apply (chain_snoc_replace _ _ current_line); [done |].
    intros x (first & rest & -> & Hfirst & Hwide).
    exists first, (rest +:+ " " +:+ word). by rewrite string_app_assoc.
  - apply IH; [done | done | done |].
    rewrite <- app_assoc. apply chain_snoc; [done |].
    exists word, EmptyString. rewrite string_app_nil_r.
    split; [done |]. split; [apply Hall; left | lia].
Qed.

(** [word_wrap] starts a new line only when it has to: a line that follows
    another begins with a word of the string that, after one space, would
    have made the line before it longer than the width. *)
Theorem X20_breaks_only_when_needed s w before a b after :
  word_wrap s w = before ++ a :: b :: after →
  ∃ word rest,
    b = word +:+ rest ∧ word ∈ split_by_spaces s ∧ w < size a + 1 + size word.
Proof.
  intros Hlines.
  apply (chain_neighbours (needed_break w (split_by_spaces s)) before a b after).
  rewrite <- Hlines. clear Hlines. unfold word_wrap.
  enough (∀ words,
            Forall (λ word, word ≠ EmptyString) words →
            (∀ word, word ∈ words → word ∈ split_by_spaces s) →
            chain (needed_break w (split_by_spaces s))
                  (let '(ret, current_line) := word_wrap_loop w words ([], EmptyString) in
                   ret ++ [current_line])) as Hgen.
  { apply Hgen; [apply split_by_spaces_nonempty_words | done]. }
  intros words Hwords Hall.
  destruct words as [|word words]; [done |].
  apply Forall_cons in Hwords as [Hword Hwords].
  rewrite word_wrap_loop_cons. cbn [word_wrap_step]. rewrite bool_decide_eq_true_2 by done.
  pose proof (word_wrap_loop_breaks w (split_by_spaces s) words [] word Hword Hwords)
    as Hloop.
  destruct (word_wrap_loop w words ([], word)) as [ret current_line].
  apply Hloop; [| done]. intros word' Hin. apply Hall. by right.
Qed.

Lemma X20_breaks_only_when_needed_witness :
  ∃ word rest,
    "cc dd" = word +:+ rest ∧ word ∈ split_by_spaces "aa bb cc dd" ∧
    5 < size "aa bb" + 1 + size word.
Proof.
  apply (X20_breaks_only_when_needed "aa bb cc dd" 5 [] "aa bb" "cc dd" []).
  reflexivity.
Defined.

(** ** The width of the rows *)



